(** * Jellyfin Music Organizer: the organization engine

    A shallow embedding of [core/organize_thread.py] (class [OrganizeThread]):
    the filename sanitizer [clean_filename], the per-file body of [run]
    (tag scan, identity check, first-element extraction, collision test,
    [_copy_file]) and the run loop with its signals and progress counter.

    Conventions.
    - A Python [str] is the list of its Unicode code points ([list N]);
      [py "..."] turns an ASCII literal into such a list.
    - The file system and the tag library ([pathlib], [os], [shutil],
      [mutagen]) are external: they are the operations of the class [World].
    - Exceptions are values: [Raise msg] carries [str(e)], the only part of an
      exception the engine ever looks at.
    - [int(i / len(pathlist) * 100)] is computed in binary64 arithmetic; module
      [Binary64] gives round-to-nearest-even on exact rationals. *)

From Stdlib Require Import ZArith NArith QArith Qround Qpower Lqa Lia String Ascii List Sorted.
From Stdlib Require SpecFloat.
From stdpp Require Import base list gmap.

Local Open Scope N_scope.

(** ** Python strings *)

Abbreviation str := (list N).

(** An ASCII literal as a [str]. *)
Definition py (s : string) : str := map N_of_ascii (list_ascii_of_string s).

(** [s.startswith(p)] *)
Fixpoint startswith (p s : str) : bool :=
  match p, s with
  | [], _ => true
  | _ :: _, [] => false
  | a :: p', b :: s' => (a =? b) && startswith p' s'
  end.

(** [text.translate(table)] for the table [str.maketrans] builds from two
    empty strings and [chars]: every character of [chars] is deleted. *)
Definition translate_delete (chars : str) (text : str) : str :=
  filter (λ c, c ∉ chars) text.

(** [text.replace(old, new)] for a non-empty [old]: a left-to-right scan that
    replaces non-overlapping occurrences.  [skip] counts the characters of a
    matched occurrence that are still to be dropped. *)
Fixpoint replace_from (old new : str) (skip : nat) (text : str) : str :=
  match text with
  | [] => []
  | c :: rest =>
      match skip with
      | S k => replace_from old new k rest
      | O =>
          if startswith old text
          then new ++ replace_from old new (Nat.pred (length old)) rest
          else c :: replace_from old new 0 rest
      end
  end.

Definition replace (old new text : str) : str := replace_from old new 0 text.

(** [c.isspace()]: the code points Python treats as whitespace. *)
Definition isspace (c : N) : bool :=
  ((9 <=? c) && (c <=? 13)) || ((28 <=? c) && (c <=? 32))
  || (c =? 133) || (c =? 160) || (c =? 5760)
  || ((8192 <=? c) && (c <=? 8202))
  || (c =? 8232) || (c =? 8233) || (c =? 8239) || (c =? 8287) || (c =? 12288).

Fixpoint lstrip (text : str) : str :=
  match text with
  | [] => []
  | c :: rest => if isspace c then lstrip rest else text
  end.

Definition rstrip (text : str) : str := rev (lstrip (rev text)).

(** [text.strip()] *)
Definition strip (text : str) : str := rstrip (lstrip text).

(** ** The filename sanitizer *)

(** [OrganizeThread.clean_filename]; [remove_illegal_chars] is the setting
    read by [load_settings] (default [True]). *)
Definition clean_filename (remove_illegal_chars : bool) (text : str) : str :=
  let text :=
    if remove_illegal_chars then
      replace (py "...") []
        (replace (py "'") []
           (replace [34] []
              (replace (py "\") []
                 (replace (py "/") []
                    (translate_delete (py ":*?<>|") text)))))
    else text in
  strip text.

(** [text.split(sep)] for a one-character separator. *)
Fixpoint split_on (sep : N) (text : str) : list str :=
  match text with
  | [] => [[]]
  | c :: rest =>
      if c =? sep then [] :: split_on sep rest
      else match split_on sep rest with
           | h :: t => (c :: h) :: t
           | [] => [[c]]
           end
  end.

(** [key.lower()].  Only the ASCII letters are mapped: outside ASCII,
    Python's lower-casing never produces a character that occurs in one of
    the alias keys below (the Kelvin sign gives [k], which no alias has), so
    the membership tests of [run] come out the same. *)
Definition lower_char (c : N) : N :=
  if (65 <=? c) && (c <=? 90) then c + 32 else c.

Definition lower (key : str) : str := map lower_char key.

(** ** Binary64 arithmetic for the progress percentage

    Python evaluates [i / len(pathlist) * 100] in IEEE 754 binary64 with
    round-to-nearest-even: the true quotient of the two integers is rounded
    once, the product with [100.0] is rounded once more, and [int] truncates.
    Values are exact rationals here and the exponent is unbounded: the
    quotient lies in (0, 1] and the product in (0, 100], inside the normal
    range of binary64 for every list length a Python process can hold. *)
Module Binary64.
Local Open Scope Q_scope.

Definition prec : Z := 53.

(** [floor (log2 q)] for [0 < q]. *)
Definition ilog2 (q : Q) : Z :=
  let c := (Z.log2 (Qnum q) - Z.log2 (Zpos (Qden q)))%Z in
  if Qle_bool (2 ^ c) q then c else (c - 1)%Z.

(** The nearest integer, ties to the even one. *)
Definition nearest_even (q : Q) : Z :=
  let f := Qfloor q in
  match Qcompare (q - inject_Z f) (1 # 2) with
  | Lt => f
  | Gt => (f + 1)%Z
  | Eq => if Z.even f then f else (f + 1)%Z
  end.

(** Rounding of a positive rational to [prec] significant bits. *)
Definition round_pos (q : Q) : Q :=
  let e := (ilog2 q - (prec - 1))%Z in
  inject_Z (nearest_even (q * 2 ^ (- e))) * 2 ^ e.

Definition round (q : Q) : Q :=
  let q := Qred q in
  match Qcompare q 0 with
  | Eq => 0
  | Gt => round_pos q
  | Lt => - round_pos (- q)
  end.

(** [a / b] on Python integers ([b] is not zero where the engine divides). *)
Definition truediv (a b : Z) : Q := round (inject_Z a / inject_Z b).

(** [x * y] on floats. *)
Definition mul (x y : Q) : Q := round (x * y).

(** [int(x)]: truncation toward zero. *)
Definition int (x : Q) : Z :=
  if Qle_bool 0 x then Qfloor x else Qceiling x.

(** [round(x)] on a float, Python 3: nearest integer, ties to even. *)
Definition py_round (x : Q) : Z := nearest_even x.
End Binary64.

(** ** Tag values, exceptions, records *)

(** An element of a multi-valued tag: a plain [str], or mutagen's
    [ASFUnicodeAttribute] wrapper, whose [str()] is its payload. *)
Inductive TagItem :=
  | PlainText (s : str)
  | ASFUnicodeAttribute (s : str).

(** A tag value as [run] uses it: something that is compared with the empty string and
    indexed at [0]. *)
Inductive TagValue :=
  | VStr (s : str)
  | VSeq (items : list TagItem).

Abbreviation TagMap := (list (str * TagValue)).

Inductive Exn (A : Type) :=
  | Ok (a : A)
  | Raise (msg : str).
Arguments Ok {A} a.
Arguments Raise {A} msg.

(** The dictionary built by [_handle_existing_file]. *)
Record ExistingFile := {
  existing_file_name : str;
  new_location : str;
  path_in_str : str;
  existing_error : str
}.

(** The dictionary built by [_create_error_info]. *)
Record ErrorFile := {
  file_name : str;
  artist_found : TagValue;
  album_found : TagValue;
  metadata_dict : gmap str TagValue;
  error : str
}.

(** [file_info] at the [finally] clause: still [{}], or one of the two
    dictionaries above. *)
Inductive FileInfo :=
  | NoInfo
  | Existing (r : ExistingFile)
  | Failed (r : ErrorFile).

(** The outcome of a file, as the branch taken by [run] decides it. *)
Inductive Outcome := Moved | SkippedExisting | Errored.

Definition outcome_of (fi : FileInfo) : Outcome :=
  match fi with
  | NoInfo => Moved
  | Existing _ => SkippedExisting
  | Failed _ => Errored
  end.

Record RecallFiles := {
  error_files : list ErrorFile;
  replace_skip_files : list ExistingFile
}.

Inductive Signal :=
  | number_songs_signal (n : nat)
  | music_progress_signal (percent : Z)
  | kill_thread_signal (s : str)
  | custom_dialog_signal (s : str)
  | organize_finish_signal (r : RecallFiles).

Record Info := {
  selected_music_folder_path : str;
  selected_destination_folder_path : str
}.

(** Stateful, fallible computations over the world. *)
Definition M (W A : Type) : Type := W → Exn A * W.

#[export] Instance M_ret {W} : MRet (M W) := λ A a w, (Ok a, w).

#[export] Instance M_bind {W} : MBind (M W) :=
  λ A B k m w, match m w with
               | (Ok a, w') => k a w'
               | (Raise msg, w') => (Raise msg, w')
               end.

Definition raise {W A} (msg : str) : M W A := λ w, (Raise msg, w).

(** [if cond: raise Exception(msg)] *)
Definition raise_if {W} (cond : bool) (msg : str) : M W unit :=
  if cond then raise msg else mret tt.

(** A query that leaves the world as it is. *)
Definition reads {W A} (f : W → A) : M W A := λ w, (Ok (f w), w).

(** [try: m  except Exception as e: h(str(e))] *)
Definition try_except {W A} (m : M W A) (h : str → M W A) : M W A :=
  λ w, match m w with
       | (Ok a, w') => (Ok a, w')
       | (Raise msg, w') => h msg w'
       end.

(** ** The outside world *)

Class World (W : Type) := {
  (** [list(Path(root).glob(pattern))], each path as [str(path)] *)
  glob : W → str → str → list str;
  (** [mutagen.File(path)]: raises, returns [None], or returns a tag mapping
      whose [items()] are listed in iteration order *)
  mutagen_File : W → str → Exn (option TagMap);
  (** [Path(p).exists()] *)
  path_exists : W → str → bool;
  (** [os.access(p, os.R_OK)] *)
  access_R_OK : W → str → bool;
  (** [Path(p).parent.mkdir(parents=True, exist_ok=True)] *)
  parent_mkdir : str → M W unit;
  (** [shutil.copy2(src, dst)] *)
  copy2 : str → str → M W unit
}.

(** Cross-check of [Binary64] against the Standard Library's executable
    IEEE 754 specification at precision 53 and maximal exponent 1024. *)
Module Binary64Check.
Import SpecFloat.

Definition of_Z (z : Z) : spec_float := binary_normalize 53 1024 z 0 false.

Definition to_int (x : spec_float) : Z :=
  match x with
  | S754_finite s m e =>
      let v := match e with
               | Z0 => Zpos m
               | Zpos p => (Zpos m * 2 ^ Zpos p)%Z
               | Zneg p => (Zpos m / 2 ^ Zpos p)%Z
               end in
      if s then (- v)%Z else v
  | _ => 0%Z
  end.

Definition percent (i n : Z) : Z :=
  to_int (SFmul 53 1024 (SFdiv 53 1024 (of_Z i) (of_Z n)) (of_Z 100)).
End Binary64Check.

(** ** The engine *)

(** The names searched for, as [run] lists them; [©] is code point 169. *)
Definition artist_values : list str :=
  [169 :: py "art"; py "artist"; py "author"; py "tpe1"].
Definition album_values : list str :=
  [169 :: py "alb"; py "album"; py "talb"].

Definition extensions : list str :=
  [py ".aif"; py ".aiff"; py ".ape"; py ".flac"; py ".m4a"; py ".m4b";
   py ".m4r"; py ".mp2"; py ".mp3"; py ".mp4"; py ".mpc"; py ".ogg";
   py ".opus"; py ".wav"; py ".wma"].

Definition collision_message : str :=
  py "File already exists in the destination folder".

Definition identity_missing_message : str :=
  py "Artist or album data not found".

(** [_handle_existing_file] *)
Definition _handle_existing_file (file_name new_location path_in_str : str)
  : ExistingFile :=
  {| existing_file_name := file_name;
     new_location := new_location;
     path_in_str := path_in_str;
     existing_error := collision_message |}.

(** [_create_error_info] *)
Definition _create_error_info (file_name : str) (artist_data album_data : TagValue)
    (metadata_dict : gmap str TagValue) (error : str) : ErrorFile :=
  {| file_name := file_name;
     artist_found := artist_data;
     album_found := album_data;
     metadata_dict := metadata_dict;
     error := error |}.

(** The first loop over [metadata.items()]: [metadata_dict[key] = value]. *)
Definition collect_metadata (items : TagMap) : gmap str TagValue :=
  foldl (λ d kv, <[kv.1 := kv.2]> d) ∅ items.

(** One iteration of the second loop over [metadata.items()]. *)
Definition scan_item (found : TagValue * TagValue) (kv : str * TagValue)
  : TagValue * TagValue :=
  let lowercase_key := lower kv.1 in
  if bool_decide (lowercase_key ∈ artist_values) then (kv.2, found.2)
  else if bool_decide (lowercase_key ∈ album_values) then (found.1, kv.2)
  else found.

(** The second loop, started from [artist_data] and [album_data] both the
    empty string. *)
Definition scan_identity (items : TagMap) : TagValue * TagValue :=
  foldl scan_item (VStr [], VStr []) items.

(** [value == s] for the empty string [s] *)
Definition eq_empty_str (value : TagValue) : bool :=
  match value with
  | VStr [] => true
  | _ => false
  end.

(** [value[0]] *)
Definition index0 {W} (value : TagValue) : M W TagItem :=
  match value with
  | VStr [] => raise (py "string index out of range")
  | VStr (c :: _) => mret (PlainText [c])
  | VSeq [] => raise (py "list index out of range")
  | VSeq (x :: _) => mret x
  end.

(** [str(x) if isinstance(x, ASFUnicodeAttribute) else x] *)
Definition to_text (x : TagItem) : str :=
  match x with
  | PlainText s => s
  | ASFUnicodeAttribute s => s
  end.

(** [file_info.get("error")] *)
Definition get_error (file_info : FileInfo) : option str :=
  match file_info with
  | NoInfo => None
  | Existing r => Some (existing_error r)
  | Failed r => Some (error r)
  end.

(** The test of the [finally] clause:
    [not file_info.get("error") or file_info.get("error") != "File already ..."] *)
Definition counts_for_progress (file_info : FileInfo) : bool :=
  match get_error file_info with
  | None => true
  | Some [] => true
  | Some e => negb (bool_decide (e = collision_message))
  end.

(** [int(i / len(pathlist) * 100)] *)
Definition progress_percent (i total : nat) : Z :=
  Binary64.int
    (Binary64.mul (Binary64.truediv (Z.of_nat i) (Z.of_nat total)) 100%Q).

(** What the specification writes: [round(processed / total * 100)]. *)
Definition spec_progress_percent (processed total : nat) : Z :=
  Binary64.py_round
    (Binary64.mul (Binary64.truediv (Z.of_nat processed) (Z.of_nat total)) 100%Q).

Section Engine.
Context {W : Type} `{World W}.

(** [_copy_file]; the call to [logger.error] is not modelled. *)
Definition _copy_file (source_path destination_path : str) (create_dirs : bool)
  : M W unit :=
  try_except
    ((if create_dirs then parent_mkdir destination_path else mret tt) ;;
     source_exists ← reads (λ w, path_exists w source_path) ;
     raise_if (negb source_exists) (py "Source file not found: " ++ source_path) ;;
     readable ← reads (λ w, access_R_OK w source_path) ;
     raise_if (negb readable) (py "Cannot read source file: " ++ source_path) ;;
     dest_exists ← reads (λ w, path_exists w destination_path) ;
     raise_if dest_exists
       (py "Destination file already exists: " ++ destination_path) ;;
     copy2 source_path destination_path ;;
     copied ← reads (λ w, path_exists w destination_path) ;
     raise_if (negb copied) (py "File copy failed: " ++ destination_path))
    (λ e, raise (py "Copy failed: " ++ e)).

(** The part of the [try] block after the two loops over the tags. *)
Definition place_file (remove_illegal_chars : bool) (info : Info)
    (path_in_str file_name : str) (artist_data album_data : TagValue)
  : M W FileInfo :=
  raise_if (eq_empty_str artist_data || eq_empty_str album_data)
    identity_missing_message ;;
  artist0 ← index0 artist_data ;
  album0 ← index0 album_data ;
  let artist := clean_filename remove_illegal_chars (to_text artist0) in
  let album := clean_filename remove_illegal_chars (to_text album0) in
  let new_location :=
    selected_destination_folder_path info ++ py "/" ++ artist ++ py "/" ++ album in
  target_exists ← reads (λ w, path_exists w (new_location ++ py "/" ++ file_name)) ;
  if (target_exists : bool)
  then mret (Existing (_handle_existing_file file_name new_location path_in_str))
  else _copy_file path_in_str (new_location ++ py "/" ++ file_name) true ;;
       mret NoInfo.

(** The [try]/[except] of one loop iteration: the value of [file_info] at
    the [finally] clause, and the world after it. *)
Definition process_file (remove_illegal_chars : bool) (info : Info) (path : str)
    (w : W) : FileInfo * W :=
  let path_in_str := replace (py "\") (py "/") path in
  let file_name := List.last (split_on 47 path_in_str) [] in
  let failed artist_data album_data metadata_dict e :=
    Failed (_create_error_info file_name artist_data album_data metadata_dict e) in
  match mutagen_File w path_in_str with
  | Raise e => (failed (VStr []) (VStr []) ∅ e, w)
  | Ok None =>
      (failed (VStr []) (VStr []) ∅
         (py "'NoneType' object has no attribute 'items'"), w)
  | Ok (Some items) =>
      let metadata_dict := collect_metadata items in
      let '(artist_data, album_data) := scan_identity items in
      match place_file remove_illegal_chars info path_in_str file_name
              artist_data album_data w with
      | (Ok file_info, w') => (file_info, w')
      | (Raise e, w') => (failed artist_data album_data metadata_dict e, w')
      end
  end.

(** The state of the loop of [run]. *)
Record LoopState := {
  world : W;
  recall_files : RecallFiles;
  i : nat;
  emitted : list Signal
}.

Definition record_file (file_info : FileInfo) (r : RecallFiles) : RecallFiles :=
  match file_info with
  | NoInfo => r
  | Existing e =>
      {| error_files := error_files r;
         replace_skip_files := replace_skip_files r ++ [e] |}
  | Failed e =>
      {| error_files := error_files r ++ [e];
         replace_skip_files := replace_skip_files r |}
  end.

(** One iteration of [for path in pathlist]. *)
Definition loop_step (remove_illegal_chars : bool) (info : Info) (total : nat)
    (st : LoopState) (path : str) : LoopState :=
  let '(file_info, w') := process_file remove_illegal_chars info path (world st) in
  let r := record_file file_info (recall_files st) in
  if counts_for_progress file_info
  then {| world := w'; recall_files := r; i := S (i st);
          emitted := emitted st
                     ++ [music_progress_signal (progress_percent (S (i st)) total)] |}
  else {| world := w'; recall_files := r; i := i st; emitted := emitted st |}.

Definition discover (info : Info) (w : W) : list str :=
  flat_map (λ extension, glob w (selected_music_folder_path info)
                           (py "**/*" ++ extension)) extensions.

(** The loop state before the first file: [recall_files] with two empty
    lists and [i = 0]. *)
Definition initial_state (w : W) : LoopState :=
  {| world := w;
     recall_files := {| error_files := []; replace_skip_files := [] |};
     i := 0; emitted := [] |}.

(** [OrganizeThread.run]: the signals emitted, in order, and the world
    the run leaves. *)
Definition run (remove_illegal_chars : bool) (info : Info) (w : W)
  : list Signal * W :=
  let pathlist := discover info w in
  let total_number_of_songs := length pathlist in
  match total_number_of_songs with
  | S _ =>
      let st := foldl (loop_step remove_illegal_chars info total_number_of_songs)
                  (initial_state w) pathlist in
      (number_songs_signal total_number_of_songs
         :: emitted st ++ [organize_finish_signal (recall_files st)],
       world st)
  | O =>
      ([number_songs_signal 0;
        custom_dialog_signal (py "No songs were found in the selected folder.");
        kill_thread_signal (py "organize")], w)
  end.
End Engine.

(** ** A small in-memory world, for running the engine on examples

    Files are listed with the result [mutagen.File] has on them and their
    read permission; directories are not represented, so creating them always
    succeeds. *)
Record MemFile := {
  mem_tags : Exn (option TagMap);
  mem_readable : bool
}.

Abbreviation MemFS := (list (str * MemFile)).

Fixpoint mem_lookup (p : str) (fs : MemFS) : option MemFile :=
  match fs with
  | [] => None
  | (q, f) :: rest => if bool_decide (p = q) then Some f else mem_lookup p rest
  end.

Definition endswith (suffix s : str) : bool := startswith (rev suffix) (rev s).

Definition mem_glob (fs : MemFS) (root pattern : str) : list str :=
  List.filter (λ p, startswith (root ++ py "/") p && endswith (drop 4 pattern) p)
    (map fst fs).

Definition mem_copy2 (src dst : str) : M MemFS unit := λ fs,
  match mem_lookup src fs with
  | Some f => (Ok tt, fs ++ [(dst, f)])
  | None => (Raise (py "[Errno 2] No such file or directory: " ++ src), fs)
  end.

#[export] Instance MemWorld : World MemFS := {|
  glob := mem_glob;
  mutagen_File fs p :=
    match mem_lookup p fs with
    | Some f => mem_tags f
    | None => Raise (py "[Errno 2] No such file or directory: " ++ p)
    end;
  path_exists fs p := match mem_lookup p fs with Some _ => true | None => false end;
  access_R_OK fs p := match mem_lookup p fs with Some f => mem_readable f | None => false end;
  parent_mkdir _ := mret tt;
  copy2 := mem_copy2
|}.

Definition tagged (items : TagMap) : MemFile :=
  {| mem_tags := Ok (Some items); mem_readable := true |}.

Definition text_tag (key value : string) : str * TagValue :=
  (py key, VSeq [PlainText (py value)]).

Definition demo_info : Info :=
  {| selected_music_folder_path := py "music";
     selected_destination_folder_path := py "out" |}.

(** A complete file. *)
Definition complete_song : MemFile :=
  tagged [text_tag "artist" "Band"; text_tag "album" "LP"].

(** Two artist aliases in one file. *)
Definition two_artists : TagMap :=
  [text_tag "artist" "First"; text_tag "author" "Second"; text_tag "album" "LP"].

(** The input of the sanitizer example: [My/Band: "Best"]. *)
Definition band_input : str := py "My/Band: " ++ [34] ++ py "Best" ++ [34].

(** One source file whose target is already in the destination tree. *)
Definition fs_collision : MemFS :=
  [(py "music/b.mp3", complete_song); (py "out/Band/LP/b.mp3", complete_song)].

(** Two source files, the second of which collides. *)
Definition fs_one_of_two : MemFS :=
  [(py "music/a.mp3", complete_song); (py "music/b.mp3", complete_song);
   (py "out/Band/LP/b.mp3", complete_song)].

(** Three source files, none of which collides. *)
Definition fs_three : MemFS :=
  [(py "music/a.mp3", complete_song); (py "music/b.mp3", complete_song);
   (py "music/c.mp3", complete_song)].

(** A file with an artist but no album. *)
Definition fs_artist_only : MemFS :=
  [(py "music/a.mp3", tagged [text_tag "artist" "Band"])].


(** A source tree without any audio file. *)
Definition fs_no_songs : MemFS := [(py "music/readme.txt", complete_song)].

(** ** Vocabulary of the properties *)

Definition dots3 : str := [46; 46; 46].

(** A string that does not begin with whitespace. *)
Definition head_kept (s : str) : Prop :=
  match s with
  | [] => True
  | c :: _ => isspace c = false
  end.

(** The characters [clean_filename] deletes one by one. *)
Definition legal (c : N) : Prop :=
  (c ∉ py ":*?<>|") ∧ c ≠ 47 ∧ c ≠ 92 ∧ c ≠ 34 ∧ c ≠ 39.

(** [clean_filename] before the final [strip], with the flag set. *)
Definition delete_illegal (text : str) : str :=
  replace dots3 []
    (replace [39] [] (replace [34] [] (replace [92] [] (replace [47] []
       (translate_delete (py ":*?<>|") text))))).

(** A tag whose lower-cased key is one of [aliases]. *)
Definition is_alias (aliases : list str) (kv : str * TagValue) : bool :=
  bool_decide (lower kv.1 ∈ aliases).

(** The value of the first, respectively last, tag of an alias class in
    iteration order. *)
Definition first_match (aliases : list str) (items : TagMap) : option TagValue :=
  snd <$> List.find (is_alias aliases) items.

Definition last_match (aliases : list str) (items : TagMap) : option TagValue :=
  first_match aliases (rev items).

(** The percentages carried by the progress signals, in emission order. *)
Definition progress_values (signals : list Signal) : list Z :=
  omap (λ s, match s with music_progress_signal p => Some p | _ => None end) signals.


(** Records the [finally] clause does not count: those whose error text is
    the collision message. *)
Definition uncounted (r : RecallFiles) : nat :=
  (length (filter (λ e, existing_error e = collision_message) (replace_skip_files r))
   + length (filter (λ e, error e = collision_message) (error_files r)))%nat.

(** The progress signals of [count] counted files, the first of which is
    number [first]. *)
Definition progress_signals (total first count : nat) : list Signal :=
  map (λ processed, music_progress_signal (progress_percent processed total))
    (seq first count).

(** A file the tag library cannot parse. *)
Definition fs_unreadable : MemFS :=
  [(py "music/a.mp3",
    {| mem_tags := Raise (py "can't sync to MPEG frame"); mem_readable := true |})].

(** Agreement of [progress_percent] with the IEEE 754 specification for every
    counter value of every run of at most [n] files. *)
Definition agrees_up_to (n : nat) : bool :=
  forallb (λ total,
    forallb (λ processed,
      Z.eqb (progress_percent processed total)
            (Binary64Check.percent (Z.of_nat processed) (Z.of_nat total)))
      (seq 1 total))
    (seq 1 n).

(** ** Further parts of the code *)

(** The target the [try] block of [run] computes for a file whose first
    artist and album elements are [artist0] and [album0]. *)
Definition target_path (remove_illegal_chars : bool) (info : Info)
    (file_name : str) (artist0 album0 : TagItem) : str :=
  (selected_destination_folder_path info
   ++ py "/" ++ clean_filename remove_illegal_chars (to_text artist0)
   ++ py "/" ++ clean_filename remove_illegal_chars (to_text album0))
  ++ py "/" ++ file_name.

(** [str(path).replace(...)] and [path_in_str.split("/")[-1]] of [run]. *)
Definition path_in_str_of (path : str) : str := replace (py "\") (py "/") path.

Definition file_name_of (path : str) : str :=
  List.last (split_on 47 (path_in_str_of path)) [].

(** *** The settings read by [OrganizeThread.__init__]

    [settings_jmo.json] as [load_settings] meets it: absent, failing in any
    other way ([open] or [json.load] raising something else, or a document
    that is no object, on which [settings.get] raises), or an object.  The
    values of the object are Python objects of which only the truth value is
    ever used. *)
Section Settings.
Context {PyObj : Type}.
Variable truth : PyObj → bool.

Inductive SettingsFile :=
  | FileNotFound
  | LoadFails (msg : str)
  | Loaded (settings : gmap str PyObj).

(** The attribute [self.remove_illegal_chars]: the [True] of [__init__] and
    of the default of [settings.get], or a value of the file. *)
Inductive Attribute :=
  | PyTrue
  | FromSettings (v : PyObj).

(** [OrganizeThread.load_settings]: only [FileNotFoundError] is caught. *)
Definition load_settings (file : SettingsFile) (remove_illegal_chars : Attribute)
  : Exn Attribute :=
  match file with
  | FileNotFound => Ok remove_illegal_chars
  | LoadFails msg => Raise msg
  | Loaded settings =>
      Ok (match settings !! py "remove_illegal_chars" with
          | Some v => FromSettings v
          | None => PyTrue
          end)
  end.

(** [OrganizeThread.__init__]: the attribute after construction. *)
Definition __init__ (file : SettingsFile) : Exn Attribute :=
  load_settings file PyTrue.

(** The test [if self.remove_illegal_chars:] of [clean_filename]. *)
Definition attribute_truth (a : Attribute) : bool :=
  match a with
  | PyTrue => true
  | FromSettings v => truth v
  end.
End Settings.

(** *** The settings window ([ui/settings_window.py]) *)

Section SettingsWindow.
Context {V : Type}.
(** Python's [None], which [dict.get] answers for a missing key. *)
Variable py_none : V.
(** Python's [a != b] on the values of the settings.  Nothing is assumed of
    it: a float NaN, for one, differs from itself. *)
Variable py_ne : V → V → bool.

(** [d.get(key)] *)
Definition dict_get (d : gmap str V) (key : str) : V := default py_none (d !! key).

(** [SettingsWindow._settings_changed]:
    [any(settings.get(key) != original.get(key) for key in settings)] *)
Definition _settings_changed (settings original : gmap str V) : bool :=
  existsb (λ key, py_ne (dict_get settings key) (dict_get original key))
    (map fst (map_to_list settings)).
End SettingsWindow.

(** Setting values for examples: [None], a truth value, a float NaN; and
    Python's [!=] on them. *)
Inductive SettingValue :=
  | SNone
  | SBool (b : bool)
  | SNaN.

Definition setting_ne (a b : SettingValue) : bool :=
  match a, b with
  | SNone, SNone => false
  | SBool x, SBool y => xorb x y
  | _, _ => true
  end.

Definition settings_muted : gmap str SettingValue :=
  {[ py "mute_sound" := SBool true ]}.

Definition settings_with_nan : gmap str SettingValue :=
  {[ py "volume" := SNaN ]}.

(** [SettingsWindow.center_window] and [PlatformUI.center_window]: the
    position the window is moved to, from the widths and heights of the
    screen and of the window; [//] is floor division. *)
Definition center_window (screen_width screen_height width height : Z) : Z * Z :=
  (((screen_width - width) / 2)%Z, ((screen_height - height) / 2)%Z).

(** The exact percentage, cut down to an integer. *)
Definition exact_percent (processed total : nat) : Z :=
  (100 * Z.of_nat processed / Z.of_nat total)%Z.

(** No occurrence of the three dots in a string. *)
Definition no_dots3 (s : str) : Prop := ∀ l1 l2, s ≠ l1 ++ dots3 ++ l2.

(** A string that does not end with whitespace. *)
Definition tail_kept (s : str) : Prop := head_kept (rev s).

(** The value of the last occurrence of [key] among the tags. *)
Definition last_value (key : str) (items : TagMap) : option TagValue :=
  snd <$> List.find (λ kv, bool_decide (kv.1 = key)) (rev items).

(** A tag of either alias class. *)
Definition is_identity_tag (kv : str * TagValue) : bool :=
  is_alias artist_values kv || is_alias album_values kv.

(** A settings object whose flag is off, for an example. *)
Definition settings_flag_off : gmap str bool :=
  {[ py "remove_illegal_chars" := false ]}.

(** A tagged file that cannot be read. *)
Definition fs_locked : MemFS :=
  [(py "music/a.mp3",
    {| mem_tags := Ok (Some [text_tag "artist" "Band"; text_tag "album" "LP"]);
       mem_readable := false |})].

(** A file on which the tag library fails with the very text of the
    collision message. *)
Definition fs_collision_text : MemFS :=
  [(py "music/a.mp3",
    {| mem_tags := Raise collision_message; mem_readable := true |})].

(** [fs_three] after its first file was copied. *)
Definition fs_three_moved : MemFS :=
  fs_three ++ [(py "out/Band/LP/a.mp3", complete_song)].

(** * Properties *)

(** ** Strings *)

Lemma replace_from_Forall (P : N → Prop) old k s :
  Forall P s → Forall P (replace_from old [] k s).
Proof.
  intros Hs. revert k.
  induction Hs as [|c rest Hc Hrest IH]; intros k; simpl; [constructor|].
  destruct k as [|k]; [|apply IH].
  destruct (startswith old (c :: rest)); simpl; [apply IH|].
  constructor; [exact Hc|apply IH].
Qed.

Lemma replace_char_filter c s :
  replace [c] [] s = filter (λ x, x ≠ c) s.
Proof.
  unfold replace.
  induction s as [|x rest IH]; [reflexivity|].
  cbn [replace_from startswith length Nat.pred].
  rewrite andb_true_r.
  destruct (N.eqb_spec c x) as [->|Hne].
  - rewrite filter_cons_False by (intros Hx; apply Hx; reflexivity). exact IH.
  - rewrite filter_cons_True by congruence. rewrite IH. reflexivity.
Qed.

Lemma filter_fixed (P : N → Prop) `{∀ x, Decision (P x)} (s : str) :
  Forall P s → filter P s = s.
Proof.
  induction 1 as [|x rest Hx _ IH]; [reflexivity|].
  rewrite filter_cons_True by exact Hx. rewrite IH. reflexivity.
Qed.

Lemma filter_Forall_keep (P Q : N → Prop) `{∀ x, Decision (Q x)} (s : str) :
  Forall P s → Forall P (filter Q s).
Proof.
  induction 1 as [|x rest Hx _ IH]; [constructor|].
  destruct (decide (Q x)).
  - rewrite filter_cons_True by assumption. constructor; assumption.
  - rewrite filter_cons_False by assumption. assumption.
Qed.

Lemma filter_Forall_self (Q : N → Prop) `{∀ x, Decision (Q x)} (s : str) :
  Forall Q (filter Q s).
Proof.
  induction s as [|x rest IH]; [constructor|].
  destruct (decide (Q x)).
  - rewrite filter_cons_True by assumption. constructor; assumption.
  - rewrite filter_cons_False by assumption. assumption.
Qed.

(** *** Removal of ["..."] *)

Lemma startswith_dots3 s :
  startswith dots3 s = true ↔ ∃ r, s = 46 :: 46 :: 46 :: r.
Proof.
  split.
  - unfold dots3.
    destruct s as [|a [|b [|c r]]]; cbn [startswith];
      rewrite ?andb_false_r; try discriminate.
    rewrite andb_true_r, !andb_true_iff, !N.eqb_eq.
    intros (<- & <- & <-). eexists; reflexivity.
  - intros [r ->]. reflexivity.
Qed.

Lemma remove_dots_dots r :
  replace dots3 [] (46 :: 46 :: 46 :: r) = replace dots3 [] r.
Proof. reflexivity. Qed.

Lemma remove_dots_other x r :
  startswith dots3 (x :: r) = false →
  replace dots3 [] (x :: r) = x :: replace dots3 [] r.
Proof.
  intros Hx. unfold replace. cbn [replace_from]. rewrite Hx. reflexivity.
Qed.

(** Induction along the scan that removes the triple dots. *)
Lemma remove_dots_ind (P : str → Prop) :
  P [] →
  (∀ r, P r → P (46 :: 46 :: 46 :: r)) →
  (∀ x r, startswith dots3 (x :: r) = false → P r → P (x :: r)) →
  ∀ s, P s.
Proof.
  intros Hnil Hdots Hother s.
  remember (length s) as n eqn:Hn. revert s Hn.
  induction n as [n IH] using lt_wf_ind. intros s Hn.
  destruct s as [|x r]; [exact Hnil|].
  destruct (startswith dots3 (x :: r)) eqn:Hsw.
  - apply startswith_dots3 in Hsw as [r' Hr']. rewrite Hr'.
    apply Hdots. apply (IH (length r')); [|reflexivity].
    subst n. rewrite Hr'. simpl. lia.
  - apply Hother; [exact Hsw|].
    apply (IH (length r)); [|reflexivity]. subst n. simpl. lia.
Qed.

Lemma remove_dots_head1 s :
  startswith [46] s = false → startswith [46] (replace dots3 [] s) = false.
Proof.
  destruct s as [|x r]; [reflexivity|]. intros Hx.
  rewrite remove_dots_other.
  - exact Hx.
  - simpl in *. rewrite andb_true_r in Hx. rewrite Hx. reflexivity.
Qed.

Lemma remove_dots_head2 s :
  startswith [46; 46] s = false → startswith [46; 46] (replace dots3 [] s) = false.
Proof.
  destruct s as [|x r]; [reflexivity|]. intros Hx.
  assert (Hsw : startswith dots3 (x :: r) = false).
  { destruct (startswith dots3 (x :: r)) eqn:E; [|reflexivity].
    apply startswith_dots3 in E as [r' E]. rewrite E in Hx. discriminate. }
  rewrite remove_dots_other by exact Hsw.
  cbn [startswith] in *.
  destruct (46 =? x); [|reflexivity]. cbn [andb] in *.
  apply remove_dots_head1. exact Hx.
Qed.

Lemma remove_dots_idempotent s :
  replace dots3 [] (replace dots3 [] s) = replace dots3 [] s.
Proof.
  induction s as [|r IH|x r Hsw IH] using remove_dots_ind.
  - reflexivity.
  - rewrite remove_dots_dots. exact IH.
  - rewrite remove_dots_other by exact Hsw.
    rewrite remove_dots_other; [rewrite IH; reflexivity|].
    cbn [startswith dots3] in *.
    destruct (46 =? x); [|reflexivity]. cbn [andb] in *.
    apply (remove_dots_head2 r). exact Hsw.
Qed.

Lemma startswith_dots3_snoc s c :
  c ≠ 46 → startswith dots3 (s ++ [c]) = true → startswith dots3 s = true.
Proof.
  intros Hc Hsw. apply startswith_dots3 in Hsw as [r Hr].
  apply startswith_dots3.
  destruct s as [|a [|b [|d s']]]; simplify_eq/=; eauto.
Qed.

Lemma remove_dots_snoc s c :
  c ≠ 46 → replace dots3 [] (s ++ [c]) = replace dots3 [] s ++ [c].
Proof.
  intros Hc.
  induction s as [|r IH|x r Hsw IH] using remove_dots_ind.
  - change ([] ++ [c]) with [c]. rewrite remove_dots_other; [reflexivity|].
    unfold dots3. cbn [startswith]. apply andb_false_r.
  - simpl. rewrite !remove_dots_dots. exact IH.
  - change ((x :: r) ++ [c]) with (x :: (r ++ [c])).
    rewrite remove_dots_other.
    + rewrite IH, remove_dots_other by exact Hsw. reflexivity.
    + destruct (startswith dots3 (x :: r ++ [c])) eqn:E; [|reflexivity].
      apply (startswith_dots3_snoc (x :: r) c Hc) in E. congruence.
Qed.

(** *** Stripping *)

Lemma lstrip_Forall (P : N → Prop) s : Forall P s → Forall P (lstrip s).
Proof.
  induction 1 as [|c rest Hc Hrest IH]; simpl; [constructor|].
  destruct (isspace c); [exact IH|constructor; assumption].
Qed.

Lemma rstrip_Forall (P : N → Prop) s : Forall P s → Forall P (rstrip s).
Proof.
  intros Hs. unfold rstrip.
  apply List.Forall_rev, lstrip_Forall, List.Forall_rev, Hs.
Qed.

Lemma strip_Forall (P : N → Prop) s : Forall P s → Forall P (strip s).
Proof. intros Hs. apply rstrip_Forall, lstrip_Forall, Hs. Qed.

Lemma lstrip_idempotent s : lstrip (lstrip s) = lstrip s.
Proof.
  induction s as [|c rest IH]; [reflexivity|]. simpl.
  destruct (isspace c) eqn:E; [exact IH|]. simpl. rewrite E. reflexivity.
Qed.

Lemma rstrip_snoc s c :
  rstrip (s ++ [c]) = if isspace c then rstrip s else s ++ [c].
Proof.
  unfold rstrip. rewrite rev_app_distr. simpl.
  destruct (isspace c); [reflexivity|].
  simpl. rewrite rev_involutive. reflexivity.
Qed.

Lemma rstrip_idempotent s : rstrip (rstrip s) = rstrip s.
Proof.
  unfold rstrip. rewrite rev_involutive, lstrip_idempotent. reflexivity.
Qed.

Lemma lstrip_head_kept s : head_kept (lstrip s).
Proof.
  induction s as [|c rest IH]; simpl; [exact I|].
  destruct (isspace c) eqn:E; [exact IH|exact E].
Qed.

Lemma head_kept_lstrip s : head_kept s → lstrip s = s.
Proof. destruct s as [|c rest]; simpl; [reflexivity|]. intros ->. reflexivity. Qed.

Lemma rstrip_head_kept s : head_kept s → head_kept (rstrip s).
Proof.
  induction s as [|c s IH] using rev_ind; [intros _; exact I|].
  intros Hs. rewrite rstrip_snoc.
  destruct (isspace c); [|exact Hs].
  apply IH. destruct s; [exact I|exact Hs].
Qed.

Lemma strip_idempotent s : strip (strip s) = strip s.
Proof.
  unfold strip.
  rewrite (head_kept_lstrip (rstrip (lstrip s))).
  - apply rstrip_idempotent.
  - apply rstrip_head_kept, lstrip_head_kept.
Qed.

Lemma isspace_not_dot c : isspace c = true → c ≠ 46.
Proof. intros Hc ->. discriminate Hc. Qed.

Lemma lstrip_no_dots s :
  replace dots3 [] s = s → replace dots3 [] (lstrip s) = lstrip s.
Proof.
  induction s as [|c rest IH]; [reflexivity|]. simpl lstrip.
  destruct (isspace c) eqn:E; [|tauto].
  intros Hs. apply IH.
  rewrite remove_dots_other in Hs; [congruence|].
  unfold dots3. cbn [startswith].
  destruct (N.eqb_spec 46 c) as [<-|]; [discriminate E|reflexivity].
Qed.

Lemma rstrip_no_dots s :
  replace dots3 [] s = s → replace dots3 [] (rstrip s) = rstrip s.
Proof.
  induction s as [|c s IH] using rev_ind; [reflexivity|].
  rewrite rstrip_snoc. destruct (isspace c) eqn:E; [|tauto].
  intros Hs. apply IH.
  rewrite remove_dots_snoc in Hs by (apply isspace_not_dot, E).
  apply app_inv_tail in Hs. exact Hs.
Qed.

Lemma strip_no_dots s :
  replace dots3 [] s = s → replace dots3 [] (strip s) = strip s.
Proof. intros Hs. apply rstrip_no_dots, lstrip_no_dots, Hs. Qed.

(** *** The sanitizer *)

Lemma clean_filename_true text :
  clean_filename true text = strip (delete_illegal text).
Proof. reflexivity. Qed.

Lemma delete_illegal_legal text : Forall legal (delete_illegal text).
Proof.
  unfold delete_illegal, translate_delete.
  apply replace_from_Forall. rewrite !replace_char_filter.
  set (s0 := filter (λ c, c ∉ py ":*?<>|") text).
  assert (H0 : Forall (λ c, c ∉ py ":*?<>|") s0) by apply filter_Forall_self.
  set (s1 := filter (λ x, x ≠ 47) s0).
  assert (H1 : Forall (λ x, x ≠ 47) s1) by apply filter_Forall_self.
  assert (H01 : Forall (λ c, c ∉ py ":*?<>|") s1) by (apply filter_Forall_keep, H0).
  set (s2 := filter (λ x, x ≠ 92) s1).
  assert (H2 : Forall (λ x, x ≠ 92) s2) by apply filter_Forall_self.
  assert (H02 : Forall (λ c, c ∉ py ":*?<>|") s2) by (apply filter_Forall_keep, H01).
  assert (H12 : Forall (λ x, x ≠ 47) s2) by (apply filter_Forall_keep, H1).
  set (s3 := filter (λ x, x ≠ 34) s2).
  assert (H3 : Forall (λ x, x ≠ 34) s3) by apply filter_Forall_self.
  assert (H03 : Forall (λ c, c ∉ py ":*?<>|") s3) by (apply filter_Forall_keep, H02).
  assert (H13 : Forall (λ x, x ≠ 47) s3) by (apply filter_Forall_keep, H12).
  assert (H23 : Forall (λ x, x ≠ 92) s3) by (apply filter_Forall_keep, H2).
  set (s4 := filter (λ x, x ≠ 39) s3).
  assert (H4 : Forall (λ x, x ≠ 39) s4) by apply filter_Forall_self.
  assert (H04 : Forall (λ c, c ∉ py ":*?<>|") s4) by (apply filter_Forall_keep, H03).
  assert (H14 : Forall (λ x, x ≠ 47) s4) by (apply filter_Forall_keep, H13).
  assert (H24 : Forall (λ x, x ≠ 92) s4) by (apply filter_Forall_keep, H23).
  assert (H34 : Forall (λ x, x ≠ 34) s4) by (apply filter_Forall_keep, H3).
  rewrite Forall_forall in *. unfold legal. intros c Hc. repeat split; eauto.
Qed.

Lemma delete_illegal_fixed text :
  Forall legal text → replace dots3 [] text = text → delete_illegal text = text.
Proof.
  intros Hl Hd. unfold delete_illegal, translate_delete.
  rewrite !replace_char_filter.
  rewrite (filter_fixed (λ c, c ∉ py ":*?<>|")) by (eapply Forall_impl; [exact Hl|]; unfold legal; tauto).
  rewrite (filter_fixed (λ x, x ≠ 47)) by (eapply Forall_impl; [exact Hl|]; unfold legal; tauto).
  rewrite (filter_fixed (λ x, x ≠ 92)) by (eapply Forall_impl; [exact Hl|]; unfold legal; tauto).
  rewrite (filter_fixed (λ x, x ≠ 34)) by (eapply Forall_impl; [exact Hl|]; unfold legal; tauto).
  rewrite (filter_fixed (λ x, x ≠ 39)) by (eapply Forall_impl; [exact Hl|]; unfold legal; tauto).
  exact Hd.
Qed.

(** C6: with the flag set, the sanitizer is idempotent: sanitizing a
    sanitized string gives the same string back, for every string. *)
Theorem clean_filename_idempotent (s : str) :
  clean_filename true (clean_filename true s) = clean_filename true s.
Proof.
  rewrite !clean_filename_true.
  rewrite (delete_illegal_fixed (strip (delete_illegal s))).
  - apply strip_idempotent.
  - apply strip_Forall, delete_illegal_legal.
  - apply strip_no_dots. unfold delete_illegal. apply remove_dots_idempotent.
Qed.

(** The spec's expected result for [My/Band: "Best"] is not what
    [clean_filename] returns: the slash is deleted, not turned into a space. *)
Lemma band_example_not_spaced :
  clean_filename true band_input ≠ py "My Band Best".
Proof. vm_compute. discriminate. Qed.

(** C2 (amended): with sanitization enabled, [My/Band: "Best"] is turned into
    [MyBand Best]: the slash, the colon and the double quotes are deleted and nothing is
    put in their place. *)
Theorem band_example :
  clean_filename true band_input = py "MyBand Best".
Proof. vm_compute. reflexivity. Qed.

(** ** Binary64 rounding *)

Section Binary64Facts.
Import Binary64.
Local Open Scope Q_scope.

Lemma pow2_pos e : 0 < 2 ^ e.
Proof. apply Qpower_0_lt. reflexivity. Qed.

Lemma pow2_add a b : 2 ^ a * 2 ^ b == 2 ^ (a + b).
Proof. symmetry. apply Qpower_plus. discriminate. Qed.

Lemma pow2_le a b : (a <= b)%Z → 2 ^ a <= 2 ^ b.
Proof. intros Hab. apply Qpower_le_compat_l; [exact Hab|discriminate]. Qed.

Lemma pow2_of_Z n : (0 <= n)%Z → inject_Z (2 ^ n) == 2 ^ n.
Proof. intros Hn. apply (Zpower_Qpower 2 n Hn). Qed.

Lemma log2_quotient (a : Z) (b : positive) :
  (0 < a)%Z →
  let c := (Z.log2 a - Z.log2 (Z.pos b))%Z in
  2 ^ (c - 1) <= a # b ∧ a # b < 2 ^ (c + 1).
Proof.
  intros Ha c.
  set (la := Z.log2 a) in *. set (lb := Z.log2 (Z.pos b)) in *.
  destruct (Z.log2_spec a Ha) as [Ha1 Ha2]. fold la in Ha1, Ha2.
  destruct (Z.log2_spec (Z.pos b) (Pos2Z.is_pos b)) as [Hb1 Hb2]. fold lb in Hb1, Hb2.
  assert (Hla : (0 <= la)%Z) by apply Z.log2_nonneg.
  assert (Hlb : (0 <= lb)%Z) by apply Z.log2_nonneg.
  pose proof (pow2_pos c) as HP.
  pose proof (pow2_add c lb) as HPA.
  replace (c + lb)%Z with la in HPA by (unfold c; lia).
  pose proof (pow2_add c 1) as HP1.
  pose proof (pow2_add (c - 1) 1) as HP2.
  replace (c - 1 + 1)%Z with c in HP2 by lia.
  change (2 ^ 1) with 2 in HP1, HP2.
  pose proof (pow2_pos lb) as HPB.
  rewrite <- (pow2_of_Z la Hla) in HPA. rewrite <- (pow2_of_Z lb Hlb) in HPA, HPB.
  assert (HA1 : inject_Z (2 ^ la) <= inject_Z a) by (rewrite <- Zle_Qle; exact Ha1).
  assert (HA2 : inject_Z a < inject_Z (2 ^ Z.succ la)) by (rewrite <- Zlt_Qlt; exact Ha2).
  assert (HB1 : inject_Z (2 ^ lb) <= inject_Z (Z.pos b)) by (rewrite <- Zle_Qle; exact Hb1).
  assert (HB2 : inject_Z (Z.pos b) < inject_Z (2 ^ Z.succ lb)) by (rewrite <- Zlt_Qlt; exact Hb2).
  rewrite Z.pow_succ_r in HA2, HB2 by assumption.
  rewrite inject_Z_mult in HA2, HB2.
  assert (HB : 0 < inject_Z (Z.pos b)) by (rewrite <- (Zlt_Qlt 0); lia).
  assert (Hqa : (a # b) * inject_Z (Z.pos b) == inject_Z a).
  { rewrite (Qmake_Qdiv a b). field. lra. }
  change (inject_Z 2) with 2 in HA2, HB2.
  revert Hqa HA1 HA2 HB1 HB2 HB HP HPA HP1 HP2 HPB.
  generalize (inject_Z a) (inject_Z (Z.pos b)) (inject_Z (2 ^ la)) (inject_Z (2 ^ lb)).
  generalize (2 ^ c) (2 ^ (c + 1)) (2 ^ (c - 1)) (a # b).
  intros P P1 P2 q A B PA PB. intros.
  split; nra.
Qed.

Lemma ilog2_spec q : 0 < q → 2 ^ ilog2 q <= q ∧ q < 2 ^ (ilog2 q + 1).
Proof.
  intros Hq. destruct q as [a b].
  assert (Ha : (0 < a)%Z) by (unfold Qlt in Hq; simpl in Hq; lia).
  destruct (log2_quotient a b Ha) as [Hlo Hhi].
  unfold ilog2. cbn [Qnum Qden].
  set (c := (Z.log2 a - Z.log2 (Z.pos b))%Z) in *.
  destruct (Qle_bool (2 ^ c) (a # b)) eqn:E.
  - apply Qle_bool_iff in E. split; assumption.
  - replace (c - 1 + 1)%Z with c by lia. split; [exact Hlo|].
    apply Qnot_le_lt. intros Hle. apply Qle_bool_iff in Hle. congruence.
Qed.

Lemma ilog2_mono q1 q2 : 0 < q1 → q1 <= q2 → (ilog2 q1 <= ilog2 q2)%Z.
Proof.
  intros H1 H12.
  destruct (ilog2_spec q1 H1) as [Hlo1 _].
  destruct (ilog2_spec q2) as [_ Hhi2]; [lra|].
  destruct (Z_le_gt_dec (ilog2 q1) (ilog2 q2)) as [|Hgt]; [assumption|].
  pose proof (pow2_le (ilog2 q2 + 1) (ilog2 q1) ltac:(lia)). lra.
Qed.

(** *** Nearest integer *)

Lemma nearest_even_cases q :
  nearest_even q = Qfloor q ∨ nearest_even q = (Qfloor q + 1)%Z.
Proof.
  unfold nearest_even.
  destruct (Qcompare _ _); [destruct (Z.even _)|..]; auto.
Qed.

Lemma nearest_even_low q : q - inject_Z (Qfloor q) < 1 # 2 → nearest_even q = Qfloor q.
Proof.
  intros Hq. unfold nearest_even.
  destruct (Qcompare_spec (q - inject_Z (Qfloor q)) (1 # 2)); [lra|reflexivity|lra].
Qed.

Lemma nearest_even_high q : 1 # 2 < q - inject_Z (Qfloor q) → nearest_even q = (Qfloor q + 1)%Z.
Proof.
  intros Hq. unfold nearest_even.
  destruct (Qcompare_spec (q - inject_Z (Qfloor q)) (1 # 2)); [lra|lra|reflexivity].
Qed.

Lemma nearest_even_mono x y : x <= y → (nearest_even x <= nearest_even y)%Z.
Proof.
  intros Hxy.
  pose proof (Qfloor_resp_le x y Hxy) as Hf.
  destruct (Z.eq_dec (Qfloor x) (Qfloor y)) as [Heq|Hne].
  - unfold nearest_even. rewrite <- Heq.
    destruct (Qcompare_spec (x - inject_Z (Qfloor x)) (1 # 2)) as [Hx|Hx|Hx];
    destruct (Qcompare_spec (y - inject_Z (Qfloor x)) (1 # 2)) as [Hy|Hy|Hy];
      try destruct (Z.even (Qfloor x)); try lia; lra.
  - destruct (nearest_even_cases x) as [-> | ->], (nearest_even_cases y) as [-> | ->]; lia.
Qed.

Lemma nearest_even_ge z x : inject_Z z <= x → (z <= nearest_even x)%Z.
Proof.
  intros Hz. apply Qfloor_resp_le in Hz. rewrite Qfloor_Z in Hz.
  destruct (nearest_even_cases x) as [-> | ->]; lia.
Qed.

Lemma nearest_even_le z x : x <= inject_Z z → (nearest_even x <= z)%Z.
Proof.
  intros Hz.
  pose proof (Qfloor_resp_le _ _ Hz) as Hf. rewrite Qfloor_Z in Hf.
  destruct (Z.eq_dec (Qfloor x) z) as [Heq|Hne].
  - rewrite nearest_even_low; [lia|].
    pose proof (Qfloor_le x). rewrite Heq in *. lra.
  - destruct (nearest_even_cases x) as [-> | ->]; lia.
Qed.

Lemma nearest_even_of_Z z : nearest_even (inject_Z z) = z.
Proof.
  apply Z.le_antisymm; [apply nearest_even_le|apply nearest_even_ge]; lra.
Qed.

(** *** Rounding to 53 bits *)

Lemma round_pos_bounds q :
  0 < q → 2 ^ ilog2 q <= round_pos q ∧ round_pos q <= 2 ^ (ilog2 q + 1).
Proof.
  intros Hq. destruct (ilog2_spec q Hq) as [Hlo Hhi].
  unfold round_pos, prec. set (l := ilog2 q) in *.
  set (e := (l - (53 - 1))%Z).
  pose proof (pow2_pos e) as He. pose proof (pow2_pos (- e)) as Hne.
  pose proof (pow2_add (- e) e) as Hinv.
  replace (- e + e)%Z with 0%Z in Hinv by lia. change (2 ^ 0) with 1 in Hinv.
  pose proof (pow2_add l (- e)) as H52.
  replace (l + - e)%Z with 52%Z in H52 by (unfold e; lia).
  pose proof (pow2_add (l + 1) (- e)) as H53.
  replace (l + 1 + - e)%Z with 53%Z in H53 by (unfold e; lia).
  pose proof (pow2_add 52 e) as Hl.
  replace (52 + e)%Z with l in Hl by (unfold e; lia).
  pose proof (pow2_add 53 e) as Hl1.
  replace (53 + e)%Z with (l + 1)%Z in Hl1 by (unfold e; lia).
  assert (Hge : (2 ^ 52 <= nearest_even (q * 2 ^ (- e)))%Z).
  { apply nearest_even_ge. rewrite (pow2_of_Z 52) by lia. rewrite <- H52.
    apply Qmult_le_compat_r; lra. }
  assert (Hle : (nearest_even (q * 2 ^ (- e)) <= 2 ^ 53)%Z).
  { apply nearest_even_le. rewrite (pow2_of_Z 53) by lia. rewrite <- H53.
    apply Qmult_le_compat_r; lra. }
  rewrite Zle_Qle in Hge, Hle.
  rewrite (pow2_of_Z 52) in Hge by lia. rewrite (pow2_of_Z 53) in Hle by lia.
  rewrite <- Hl, <- Hl1.
  split; apply Qmult_le_compat_r; lra.
Qed.

Lemma round_pos_mono q1 q2 : 0 < q1 → q1 <= q2 → round_pos q1 <= round_pos q2.
Proof.
  intros H1 H12.
  pose proof (ilog2_mono q1 q2 H1 H12) as Hl.
  destruct (Z.eq_dec (ilog2 q1) (ilog2 q2)) as [Heq|Hne].
  - unfold round_pos. rewrite <- Heq.
    set (e := (ilog2 q1 - (prec - 1))%Z).
    pose proof (pow2_pos e). pose proof (pow2_pos (- e)).
    apply Qmult_le_compat_r; [|lra].
    rewrite <- Zle_Qle. apply nearest_even_mono.
    apply Qmult_le_compat_r; lra.
  - destruct (round_pos_bounds q1 H1) as [_ Hhi].
    destruct (round_pos_bounds q2) as [Hlo _]; [lra|].
    pose proof (pow2_le (ilog2 q1 + 1) (ilog2 q2) ltac:(lia)). lra.
Qed.

Lemma round_pos_positive q : 0 < q → 0 < round_pos q.
Proof.
  intros Hq. destruct (round_pos_bounds q Hq) as [Hlo _].
  pose proof (pow2_pos (ilog2 q)). lra.
Qed.

Lemma round_of_pos q : 0 < q → round q = round_pos (Qred q).
Proof.
  intros Hq. unfold round.
  destruct (Qcompare_spec (Qred q) 0) as [H0|H0|H0];
    rewrite Qred_correct in H0; [lra|lra|reflexivity].
Qed.

Lemma round_ext q1 q2 : q1 == q2 → round q1 = round q2.
Proof. intros Hq. unfold round. rewrite (Qred_complete q1 q2 Hq). reflexivity. Qed.

Lemma round_positive q : 0 < q → 0 < round q.
Proof.
  intros Hq. rewrite round_of_pos by exact Hq.
  apply round_pos_positive. rewrite Qred_correct. exact Hq.
Qed.

Lemma round_mono q1 q2 : 0 < q1 → q1 <= q2 → round q1 <= round q2.
Proof.
  intros H1 H12. rewrite !round_of_pos by lra.
  apply round_pos_mono; rewrite !Qred_correct; assumption.
Qed.

(** *** The progress percentage *)

Lemma truediv_positive (a b : Z) : (0 < a)%Z → (0 < b)%Z → 0 < (inject_Z a / inject_Z b)%Q.
Proof.
  intros Ha Hb. apply Qlt_shift_div_l.
  - rewrite <- (Zlt_Qlt 0). exact Hb.
  - rewrite Qmult_0_l, <- (Zlt_Qlt 0). exact Ha.
Qed.

Lemma progress_percent_mono (i j total : nat) :
  (0 < i ≤ j)%nat → (0 < total)%nat →
  (progress_percent i total <= progress_percent j total)%Z.
Proof.
  intros Hij Ht. unfold progress_percent, int, mul, truediv.
  assert (Hb : 0 < inject_Z (Z.of_nat total)) by (rewrite <- (Zlt_Qlt 0); lia).
  assert (Hqi : 0 < inject_Z (Z.of_nat i) / inject_Z (Z.of_nat total))
    by (apply truediv_positive; lia).
  assert (Hq : inject_Z (Z.of_nat i) / inject_Z (Z.of_nat total)
               <= inject_Z (Z.of_nat j) / inject_Z (Z.of_nat total)).
  { apply Qmult_le_compat_r.
    - rewrite <- Zle_Qle. lia.
    - apply Qlt_le_weak, Qinv_lt_0_compat, Hb. }
  pose proof (round_positive _ Hqi) as Hri.
  pose proof (round_mono _ _ Hqi Hq) as Hr.
  set (ri := round (inject_Z (Z.of_nat i) / inject_Z (Z.of_nat total))) in *.
  set (rj := round (inject_Z (Z.of_nat j) / inject_Z (Z.of_nat total))) in *.
  assert (Hmi : 0 < ri * 100) by lra.
  assert (Hm : ri * 100 <= rj * 100) by lra.
  pose proof (round_positive _ Hmi) as Hpi.
  pose proof (round_mono _ _ Hmi Hm) as Hp.
  assert (Ei : Qle_bool 0 (round (ri * 100)) = true) by (apply Qle_bool_iff; lra).
  assert (Ej : Qle_bool 0 (round (rj * 100)) = true) by (apply Qle_bool_iff; lra).
  rewrite Ei, Ej. apply Qfloor_resp_le, Hp.
Qed.

Lemma progress_percent_full (total : nat) :
  (0 < total)%nat → progress_percent total total = 100%Z.
Proof.
  intros Ht. unfold progress_percent, mul, truediv.
  rewrite (round_ext (inject_Z (Z.of_nat total) / inject_Z (Z.of_nat total)) 1).
  - vm_compute. reflexivity.
  - field. intros H0. apply (Qlt_not_eq 0 (inject_Z (Z.of_nat total))).
    + rewrite <- (Zlt_Qlt 0). lia.
    + symmetry. exact H0.
Qed.
End Binary64Facts.


(** ** The identity resolver *)

Lemma alias_classes_disjoint k : k ∈ artist_values → k ∉ album_values.
Proof.
  unfold artist_values, album_values. intros Ha Hb.
  repeat (apply elem_of_cons in Ha as [->|Ha]);
    try (apply elem_of_nil in Ha; exact Ha);
    repeat (apply elem_of_cons in Hb as [Hb|Hb]; [discriminate Hb|]);
    apply elem_of_nil in Hb; exact Hb.
Qed.

Lemma last_match_snoc aliases items kv :
  last_match aliases (items ++ [kv]) =
  if is_alias aliases kv then Some kv.2 else last_match aliases items.
Proof.
  unfold last_match, first_match. rewrite rev_app_distr. simpl.
  destruct (is_alias aliases kv); reflexivity.
Qed.

Lemma scan_identity_snoc items kv :
  scan_identity (items ++ [kv]) = scan_item (scan_identity items) kv.
Proof. unfold scan_identity. rewrite foldl_app. reflexivity. Qed.

Lemma scan_identity_last items :
  scan_identity items =
  (default (VStr []) (last_match artist_values items),
   default (VStr []) (last_match album_values items)).
Proof.
  induction items as [|kv items IH] using rev_ind; [reflexivity|].
  rewrite scan_identity_snoc, IH, !last_match_snoc.
  unfold scan_item, is_alias.
  destruct (bool_decide_reflect (lower kv.1 ∈ artist_values)) as [Ha|Ha].
  - rewrite bool_decide_eq_false_2 by (apply alias_classes_disjoint, Ha). reflexivity.
  - destruct (bool_decide (lower kv.1 ∈ album_values)); reflexivity.
Qed.

Lemma last_match_absent aliases items :
  existsb (is_alias aliases) items = false → last_match aliases items = None.
Proof.
  induction items as [|kv items IH] using rev_ind; [reflexivity|].
  rewrite existsb_app, last_match_snoc. simpl. rewrite orb_false_r.
  intros [Hitems Hkv]%orb_false_iff. rewrite Hkv. apply IH, Hitems.
Qed.

(** C1 (amended): for each alias class the value of the last matching key in
    iteration order is kept, a later match overwriting an earlier one; a
    class without a key keeps the empty string. *)
Theorem last_matching_key_wins (items : TagMap) :
  (scan_identity items).1 = default (VStr []) (last_match artist_values items)
  ∧ (scan_identity items).2 = default (VStr []) (last_match album_values items).
Proof. rewrite scan_identity_last. split; reflexivity. Qed.

(** With two artist aliases in one file, the first one's value is lost. *)
Lemma first_alias_overwritten :
  first_match artist_values two_artists = Some (VSeq [PlainText (py "First")])
  ∧ (scan_identity two_artists).1 ≠ VSeq [PlainText (py "First")].
Proof. split; [reflexivity|]. vm_compute. discriminate. Qed.

(** ** One file *)

Ltac run_monad :=
  unfold raise_if, reads, try_except in *;
  unfold mbind, M_bind, mret, M_ret, raise in *.

Section OneFile.
Context {W : Type} `{World W}.

Lemma copy_file_raise src dst create_dirs w e w' :
  _copy_file src dst create_dirs w = (Raise e, w') →
  ∃ e', e = py "Copy failed: " ++ e'.
Proof.
  unfold _copy_file. run_monad.
  repeat match goal with
         | |- context [match ?m ?w with _ => _ end] => destruct (m w) as [[[]|?] ?]
         | |- context [if ?b then _ else _] => destruct b
         end; intros Heq; inversion Heq; eauto.
Qed.

Lemma copy_failed_not_collision e : py "Copy failed: " ++ e ≠ collision_message.
Proof. discriminate. Qed.

Lemma index0_pure (v : TagValue) (w : W) : (index0 v w).2 = w.
Proof. destruct v as [[|c s]|[|x l]]; reflexivity. Qed.

(** What [place_file] can give back. *)
Lemma place_file_result flag info path_in_str file_name a b w :
  match place_file flag info path_in_str file_name a b w with
  | (Ok NoInfo, _) => True
  | (Ok (Existing r), w') => existing_error r = collision_message ∧ w' = w
  | (Ok (Failed _), _) => False
  | (Raise e, _) => e ≠ collision_message
  end.
Proof.
  unfold place_file.
  destruct a as [[|c s]|[|x l]], b as [[|c' s']|[|y l']];
    unfold index0; run_monad; cbn [eq_empty_str orb]; try discriminate.
  all: destruct (path_exists w _); [split; reflexivity|].
  all: destruct (_copy_file _ _ true w) as [[[]|e] w3] eqn:Ec; [exact I|].
  all: apply copy_file_raise in Ec as [e' ->]; apply copy_failed_not_collision.
Qed.

Lemma process_file_result flag info path w :
  match (process_file flag info path w).1 with
  | NoInfo => True
  | Existing r => existing_error r = collision_message
  | Failed r =>
      error r ≠ collision_message
      ∨ mutagen_File w (replace (py "\") (py "/") path) = Raise (error r)
  end.
Proof.
  unfold process_file.
  destruct (mutagen_File w _) as [[items|]|e] eqn:Em.
  - destruct (scan_identity items) as [a b].
    pose proof (place_file_result flag info (replace (py "\") (py "/") path)
                  (List.last (split_on 47 (replace (py "\") (py "/") path)) [])
                  a b w) as Hp.
    destruct (place_file _ _ _ _ _ _ _) as [[[|r|r]|e] w']; simpl; tauto.
  - left. discriminate.
  - right. reflexivity.
Qed.

Lemma counts_for_progress_false fi :
  counts_for_progress fi = false ↔ get_error fi = Some collision_message.
Proof.
  unfold counts_for_progress.
  destruct (get_error fi) as [[|c e]|]; [split; discriminate| |split; discriminate].
  rewrite negb_false_iff, bool_decide_eq_true. split; congruence.
Qed.
End OneFile.

Section Claims.
Context {W : Type} `{World W}.

(** C8: a file whose tags hold no artist alias or no album alias ends as
    Errored with the message "Artist or album data not found"; its record
    carries the values the scan resolved, the empty string for a class
    without any key, and the world is left as it was. *)
Theorem identity_missing_errored flag info path w items :
  let path_in_str := replace (py "\") (py "/") path in
  mutagen_File w path_in_str = Ok (Some items) →
  existsb (is_alias artist_values) items = false
  ∨ existsb (is_alias album_values) items = false →
  process_file flag info path w =
    (Failed {| file_name := List.last (split_on 47 path_in_str) [];
               artist_found := (scan_identity items).1;
               album_found := (scan_identity items).2;
               metadata_dict := collect_metadata items;
               error := py "Artist or album data not found" |}, w)
  ∧ (existsb (is_alias artist_values) items = false →
     (scan_identity items).1 = VStr [])
  ∧ (existsb (is_alias album_values) items = false →
     (scan_identity items).2 = VStr []).
Proof.
  intros path_in_str Hread Hmissing.
  assert (Ha : existsb (is_alias artist_values) items = false →
               (scan_identity items).1 = VStr []).
  { intros Hno. rewrite scan_identity_last. simpl.
    rewrite (last_match_absent _ _ Hno). reflexivity. }
  assert (Hb : existsb (is_alias album_values) items = false →
               (scan_identity items).2 = VStr []).
  { intros Hno. rewrite scan_identity_last. simpl.
    rewrite (last_match_absent _ _ Hno). reflexivity. }
  split; [|split; assumption].
  unfold process_file. fold path_in_str. rewrite Hread.
  destruct (scan_identity items) as [a b] eqn:Hscan. simpl in *.
  assert (Hempty : eq_empty_str a || eq_empty_str b = true).
  { destruct Hmissing as [Hno|Hno].
    - rewrite (Ha Hno). reflexivity.
    - rewrite (Hb Hno). apply orb_true_r. }
  unfold place_file. run_monad. rewrite Hempty. reflexivity.
Qed.


(** C7: when the computed target exists at the collision check, the loop
    iteration leaves the world untouched, appends the SkippedExisting record
    and emits nothing; and [_copy_file] itself, finding its destination
    present, raises without calling the copy. *)
Theorem existing_target_skipped flag info total st path items x y :
  let path_in_str := replace (py "\") (py "/") path in
  let file_name := List.last (split_on 47 path_in_str) [] in
  let a := (scan_identity items).1 in
  let b := (scan_identity items).2 in
  let new_location :=
    selected_destination_folder_path info
    ++ py "/" ++ clean_filename flag (to_text x)
    ++ py "/" ++ clean_filename flag (to_text y) in
  mutagen_File (world st) path_in_str = Ok (Some items) →
  eq_empty_str a = false → eq_empty_str b = false →
  index0 a (world st) = (Ok x, world st) →
  index0 b (world st) = (Ok y, world st) →
  path_exists (world st) (new_location ++ py "/" ++ file_name) = true →
  loop_step flag info total st path =
    {| world := world st;
       recall_files :=
         {| error_files := error_files (recall_files st);
            replace_skip_files :=
              replace_skip_files (recall_files st)
              ++ [{| existing_file_name := file_name;
                     new_location := new_location;
                     path_in_str := path_in_str;
                     existing_error :=
                       py "File already exists in the destination folder" |}] |};
       i := i st;
       emitted := emitted st |}
  ∧ ∀ source_path destination_path w,
      let w1 := (parent_mkdir destination_path w).2 in
      path_exists w1 destination_path = true →
      ∃ e, _copy_file source_path destination_path true w = (Raise e, w1).
Proof.
  intros path_in_str file_name a b new_location Hread Ha Hb Hx Hy Hexists.
  split.
  - unfold loop_step, process_file. fold path_in_str file_name. rewrite Hread.
    subst a b. destruct (scan_identity items) as [a b]. simpl in *.
    unfold place_file. run_monad. rewrite Ha, Hb. simpl.
    rewrite Hx, Hy. fold new_location. rewrite Hexists. reflexivity.
  - intros src dst w w1 Hdst. subst w1. unfold _copy_file. run_monad.
    destruct (parent_mkdir dst w) as [[[]|e] w1]; simpl in *; [|eauto].
    destruct (path_exists w1 src); simpl; [|eauto].
    destruct (access_R_OK w1 src); simpl; [|eauto].
    rewrite Hdst. simpl. eauto.
Qed.

(** C9: a run that discovers no file emits the count, one notice and the
    kill signal, nothing else, and does not touch the world. *)
Theorem empty_source_notice flag info w :
  discover info w = [] →
  run flag info w =
    ([number_songs_signal 0;
      custom_dialog_signal (py "No songs were found in the selected folder.");
      kill_thread_signal (py "organize")], w).
Proof. intros Hnone. unfold run. rewrite Hnone. reflexivity. Qed.

(** C5 (amended): the counter goes up by one exactly when the error field of
    the file is absent or is not the collision message: for every Moved file,
    for no SkippedExisting file, whose error field is that message, and for
    an Errored file unless its message is that very text, which only an
    exception of the tag library can bring. *)
Theorem progress_counter_rule flag info total st path :
  let file_info := (process_file flag info path (world st)).1 in
  let i' := i (loop_step flag info total st path) in
  ((i' = S (i st) ∧ get_error file_info ≠ Some collision_message)
   ∨ (i' = i st ∧ get_error file_info = Some collision_message))
  ∧ (outcome_of file_info = Moved → i' = S (i st))
  ∧ (outcome_of file_info = SkippedExisting →
     i' = i st ∧ get_error file_info = Some collision_message)
  ∧ (outcome_of file_info = Errored →
     get_error file_info ≠ Some collision_message → i' = S (i st))
  ∧ (outcome_of file_info = Errored →
     get_error file_info = Some collision_message →
     i' = i st
     ∧ mutagen_File (world st) (replace (py "\") (py "/") path)
       = Raise collision_message).
Proof.
  intros file_info i'.
  pose proof (process_file_result flag info path (world st)) as Hres.
  fold file_info in Hres. subst i'. unfold loop_step.
  destruct (process_file flag info path (world st)) as [fi w'].
  simpl in *. subst file_info.
  destruct (counts_for_progress fi) eqn:Hc.
  - assert (Hne : get_error fi ≠ Some collision_message).
    { intros Heq. apply counts_for_progress_false in Heq. congruence. }
    split; [left; split; [reflexivity|exact Hne]|].
    split; [reflexivity|].
    split; [|split; [reflexivity|]].
    + intros Hskipped. destruct fi as [|r|r]; simpl in *; congruence.
    + intros _ Heq. contradiction.
  - apply counts_for_progress_false in Hc.
    split; [right; split; [reflexivity|exact Hc]|].
    split; [|split; [|split]].
    + intros Hmoved. destruct fi as [|r|r]; simpl in *; discriminate.
    + intros _. split; [reflexivity|exact Hc].
    + intros _ Hne. contradiction.
    + intros Herrored _. split; [reflexivity|].
      destruct fi as [|r|r]; simpl in *; try discriminate.
      injection Hc as Hc.
      destruct Hres as [Hne|Hraise]; [congruence|].
      rewrite Hc in Hraise. exact Hraise.
Qed.
End Claims.

(** ** The loop *)

Local Open Scope nat_scope.

Section Loop.
Context {W : Type} `{World W}.

Lemma record_file_uncounted fi r :
  uncounted (record_file fi r) =
  (if counts_for_progress fi then uncounted r else S (uncounted r)).
Proof.
  destruct (counts_for_progress fi) eqn:Hc.
  - assert (Hne : get_error fi ≠ Some collision_message).
    { intros Heq. apply counts_for_progress_false in Heq. congruence. }
    destruct fi as [|e|e]; simpl in *; [reflexivity| |]; unfold uncounted; simpl;
      rewrite filter_app, filter_cons_False, filter_nil, app_nil_r by congruence;
      reflexivity.
  - apply counts_for_progress_false in Hc.
    destruct fi as [|e|e]; simpl in *; [discriminate| |]; unfold uncounted; simpl;
      rewrite filter_app, filter_cons_True, filter_nil, length_app by congruence;
      simpl; lia.
Qed.

Lemma loop_step_effect flag info total st path :
  let st' := loop_step flag info total st path in
  (i st' = S (i st)
   ∧ emitted st' = emitted st
                   ++ [music_progress_signal (progress_percent (S (i st)) total)]
   ∧ uncounted (recall_files st') = uncounted (recall_files st))
  ∨ (i st' = i st
     ∧ emitted st' = emitted st
     ∧ uncounted (recall_files st') = S (uncounted (recall_files st))).
Proof.
  unfold loop_step.
  destruct (process_file flag info path (world st)) as [fi w'].
  pose proof (record_file_uncounted fi (recall_files st)) as Hrec.
  destruct (counts_for_progress fi); simpl; [left|right]; auto.
Qed.

Lemma loop_invariant flag info total paths st :
  let st' := foldl (loop_step flag info total) st paths in
  ∃ count,
    i st' = i st + count
    ∧ emitted st' = emitted st ++ progress_signals total (S (i st)) count
    ∧ count + uncounted (recall_files st')
      = uncounted (recall_files st) + length paths.
Proof.
  revert st. induction paths as [|path paths IH]; intros st; simpl.
  - exists 0. unfold progress_signals. simpl. rewrite app_nil_r.
    repeat split; lia.
  - destruct (IH (loop_step flag info total st path)) as (count & Hi & Hem & Hun).
    destruct (loop_step_effect flag info total st path)
      as [(Hi1 & Hem1 & Hun1)|(Hi1 & Hem1 & Hun1)];
      rewrite Hi1, Hem1 in *; rewrite Hun1 in Hun.
    + exists (S count). rewrite Hi, Hem. unfold progress_signals. simpl.
      rewrite <- app_assoc. simpl. repeat split; lia.
    + exists count. rewrite Hi, Hem. repeat split; lia.
Qed.

Lemma progress_values_signals total first count :
  progress_values (progress_signals total first count) =
  map (λ processed, progress_percent processed total) (seq first count).
Proof.
  unfold progress_signals, progress_values.
  induction (seq first count) as [|j l IH]; [reflexivity|].
  simpl. f_equal. exact IH.
Qed.

Lemma finish_not_progress total first count r :
  organize_finish_signal r ∉ progress_signals total first count.
Proof.
  unfold progress_signals. intros Hin.
  apply list_elem_of_In, in_map_iff in Hin as (j & Hj & _). discriminate.
Qed.

(** The signals of a run that found files. *)
Lemma run_signals flag info w :
  discover info w ≠ [] →
  ∃ st count,
    run flag info w =
      (number_songs_signal (length (discover info w))
         :: progress_signals (length (discover info w)) 1 count
         ++ [organize_finish_signal (recall_files st)], world st)
    ∧ count + uncounted (recall_files st) = length (discover info w).
Proof.
  intros Hfound. unfold run.
  destruct (discover info w) as [|path paths] eqn:Hd; [congruence|].
  set (total := length (path :: paths)).
  destruct (loop_invariant flag info total (path :: paths) (initial_state w))
    as (count & _ & Hem & Hun).
  exists (foldl (loop_step flag info total) (initial_state w) (path :: paths)), count.
  split; [|exact Hun].
  cbv zeta in Hem. change (emitted (initial_state w)) with (@nil Signal) in Hem.
  change (i (initial_state w)) with 0 in Hem.
  change (length (path :: paths)) with total.
  cbv iota beta. rewrite Hem. reflexivity.
Qed.

Lemma progress_values_run flag info w :
  ∃ count,
    progress_values (run flag info w).1 =
    map (λ processed, progress_percent processed (length (discover info w)))
      (seq 1 count).
Proof.
  destruct (discover info w) as [|path paths] eqn:Hd.
  - exists 0. unfold run. rewrite Hd. reflexivity.
  - destruct (run_signals flag info w) as (st & count & Hrun & _); [congruence|].
    exists count. rewrite Hrun, Hd. cbn [fst].
    unfold progress_values at 1. cbn [omap list_omap].
    fold (progress_values (progress_signals (length (path :: paths)) 1 count
                 ++ [organize_finish_signal (recall_files st)])).
    unfold progress_values. rewrite omap_app. simpl. rewrite app_nil_r.
    apply progress_values_signals.
Qed.

Lemma percent_sorted total first count :
  0 < first → 0 < total →
  StronglySorted Z.le
    (map (λ processed, progress_percent processed total) (seq first count)).
Proof.
  intros Hfirst Htotal. revert first Hfirst.
  induction count as [|count IH]; intros first Hfirst; simpl; constructor.
  - apply IH. lia.
  - apply Forall_forall. intros p Hp.
    apply list_elem_of_In, in_map_iff in Hp as (j & <- & Hj).
    apply in_seq in Hj. apply progress_percent_mono; lia.
Qed.
End Loop.

(** ** The run *)

Lemma filter_none {A} (P : A → Prop) `{∀ x, Decision (P x)} (l : list A) :
  Forall (λ x, ¬ P x) l → filter P l = [].
Proof.
  induction 1 as [|x l Hx _ IH]; [reflexivity|].
  rewrite filter_cons_False by exact Hx. exact IH.
Qed.

Lemma lookup_map_seq {A} (f : nat → A) first count j y :
  map f (seq first count) !! j = Some y → y = f (first + j) ∧ j < count.
Proof.
  revert first j. induction count as [|count IH]; intros first j; simpl.
  - discriminate.
  - destruct j as [|j]; simpl.
    + intros [= <-]. rewrite Nat.add_0_r. split; [reflexivity|lia].
    + intros Hj. apply IH in Hj as [-> Hlt].
      rewrite Nat.add_succ_r. split; [reflexivity|lia].
Qed.

Section Run.
Context {W : Type} `{World W}.

(** C4 (amended): the percentage emitted after the counted file number
    [processed] is [int(processed / total * 100)]: the binary64 product cut
    down to its integer part, not rounded to the nearest integer. *)
Theorem progress_is_truncated flag info w (j : nat) (p : Z) :
  progress_values (run flag info w).1 !! j = Some p →
  let total := length (discover info w) in
  let x := Binary64.mul (Binary64.truediv (Z.of_nat (S j)) (Z.of_nat total)) 100%Q in
  p = progress_percent (S j) total
  ∧ (inject_Z p <= x)%Q ∧ (x < inject_Z p + 1)%Q.
Proof.
  intros Hj total x.
  destruct (progress_values_run flag info w) as (count & Hvalues).
  rewrite Hvalues in Hj. fold total in Hj.
  apply lookup_map_seq in Hj as [Hp Hlt]. simpl in Hp.
  assert (Htotal : 0 < total).
  { destruct (discover info w) as [|path paths] eqn:Hd; [|subst total; simpl; lia].
    unfold run in Hvalues. rewrite Hd in Hvalues. simpl in Hvalues.
    destruct count; [lia|discriminate]. }
  split; [exact Hp|].
  assert (Hx : (0 < x)%Q).
  { subst x. unfold Binary64.mul, Binary64.truediv.
    apply round_positive.
    pose proof (round_positive _ (truediv_positive (Z.of_nat (S j)) (Z.of_nat total)
                                    ltac:(lia) ltac:(lia))).
    lra. }
  assert (Hint : p = Qfloor x).
  { rewrite Hp. unfold progress_percent, Binary64.int. fold x.
    rewrite (proj2 (Qle_bool_iff 0 x)) by lra. reflexivity. }
  rewrite Hint. split; [apply Qfloor_le|].
  pose proof (Qlt_floor x) as Hlt'. rewrite inject_Z_plus in Hlt'. exact Hlt'.
Qed.
End Run.

(** ** Concrete runs *)

(** The rational model of binary64 gives the percentages of the IEEE 754
    specification for every counter value of every run of up to 48 files. *)
Example progress_percent_ieee754 : agrees_up_to 48 = true.
Proof. vm_compute. reflexivity. Qed.

(** Rounding errors are visible: 29 of 100 files show as 28 percent. *)
Example progress_percent_29_of_100 : progress_percent 29 100 = 28%Z.
Proof. vm_compute. reflexivity. Qed.

(** A run of two files, one of which collides: the only progress signal
    carries 50, and the run ends without ever showing 100. *)
Lemma skipped_file_stops_short :
  length (discover demo_info fs_one_of_two) = 2
  ∧ progress_values (run true demo_info fs_one_of_two).1 = [50%Z]
  ∧ last (progress_values (run true demo_info fs_one_of_two).1) ≠ Some 100%Z.
Proof. vm_compute. repeat split. discriminate. Qed.

(** After the second of three counted files the engine shows 66, where
    rounding to the nearest integer gives 67. *)
Lemma second_of_three_shows_66 :
  progress_values (run true demo_info fs_three).1 !! 1 = Some 66%Z
  ∧ spec_progress_percent 2 3 = 67%Z
  ∧ progress_values (run true demo_info fs_three).1 !! 1
    ≠ Some (spec_progress_percent 2 3).
Proof. vm_compute. repeat split. discriminate. Qed.

Lemma progress_is_truncated_witness :
  66%Z = progress_percent 2 (length (discover demo_info fs_three)).
Proof.
  assert (Hj : progress_values (run true demo_info fs_three).1 !! 1 = Some 66%Z)
    by (vm_compute; reflexivity).
  exact (proj1 (progress_is_truncated true demo_info fs_three 1 66%Z Hj)).
Defined.

Lemma identity_missing_errored_witness :
  (process_file true demo_info (py "music/a.mp3") fs_artist_only).1
  = Failed {| file_name := py "a.mp3";
              artist_found := VSeq [PlainText (py "Band")];
              album_found := VStr [];
              metadata_dict := collect_metadata [text_tag "artist" "Band"];
              error := py "Artist or album data not found" |}.
Proof.
  destruct (identity_missing_errored true demo_info (py "music/a.mp3")
              fs_artist_only [text_tag "artist" "Band"]) as [Hfile _].
  - reflexivity.
  - right. reflexivity.
  - rewrite Hfile. reflexivity.
Defined.


Lemma existing_target_skipped_witness :
  world (loop_step true demo_info 1 (initial_state fs_collision) (py "music/b.mp3"))
  = fs_collision
  ∧ i (loop_step true demo_info 1 (initial_state fs_collision) (py "music/b.mp3")) = 0.
Proof.
  destruct (existing_target_skipped true demo_info 1 (initial_state fs_collision)
              (py "music/b.mp3") [text_tag "artist" "Band"; text_tag "album" "LP"]
              (PlainText (py "Band")) (PlainText (py "LP"))) as [Hstep _];
    try reflexivity.
  rewrite Hstep. split; reflexivity.
Defined.

Lemma empty_source_notice_witness :
  run true demo_info fs_no_songs =
    ([number_songs_signal 0;
      custom_dialog_signal (py "No songs were found in the selected folder.");
      kill_thread_signal (py "organize")], fs_no_songs).
Proof. apply empty_source_notice. reflexivity. Defined.

(** A file on which the tag library fails with the text of the collision
    message: it is Errored, and the counter and the signals stay as they
    were. *)
Lemma errored_with_collision_text_not_counted :
  outcome_of (process_file true demo_info (py "music/a.mp3") fs_collision_text).1
  = Errored
  ∧ i (loop_step true demo_info 1 (initial_state fs_collision_text)
         (py "music/a.mp3")) = 0
  ∧ emitted (loop_step true demo_info 1 (initial_state fs_collision_text)
               (py "music/a.mp3")) = [].
Proof. vm_compute. repeat split. Qed.

Lemma progress_counter_rule_witness :
  i (loop_step true demo_info 1 (initial_state fs_unreadable) (py "music/a.mp3")) = 1
  ∧ i (loop_step true demo_info 1 (initial_state fs_collision) (py "music/b.mp3")) = 0
  ∧ i (loop_step true demo_info 3 (initial_state fs_three) (py "music/a.mp3")) = 1
  ∧ i (loop_step true demo_info 1 (initial_state fs_collision_text)
         (py "music/a.mp3")) = 0.
Proof.
  destruct (progress_counter_rule true demo_info 1 (initial_state fs_unreadable)
              (py "music/a.mp3")) as (_ & _ & _ & Herrored & _).
  destruct (progress_counter_rule true demo_info 1 (initial_state fs_collision)
              (py "music/b.mp3")) as (_ & _ & Hskipped & _).
  destruct (progress_counter_rule true demo_info 3 (initial_state fs_three)
              (py "music/a.mp3")) as (_ & Hmoved & _).
  destruct (progress_counter_rule true demo_info 1 (initial_state fs_collision_text)
              (py "music/a.mp3")) as (_ & _ & _ & _ & Hlibrary).
  split; [|split; [|split]].
  - apply Herrored; [reflexivity|]. vm_compute. discriminate.
  - apply Hskipped. reflexivity.
  - apply Hmoved. reflexivity.
  - apply Hlibrary; reflexivity.
Defined.

(** * Further properties *)

Local Open Scope N_scope.

(** ** The sanitizer *)

Lemma remove_dots_length s : (length (replace dots3 [] s) ≤ length s)%nat.
Proof.
  induction s as [|r IH|x r Hsw IH] using remove_dots_ind.
  - reflexivity.
  - rewrite remove_dots_dots. simpl. lia.
  - rewrite remove_dots_other by exact Hsw. simpl. lia.
Qed.

Lemma remove_dots_shrinks s l1 l2 :
  s = l1 ++ dots3 ++ l2 → (length (replace dots3 [] s) < length s)%nat.
Proof.
  revert l1. induction s as [|r IH|x r Hsw IH] using remove_dots_ind; intros l1 Hs.
  - destruct l1; discriminate.
  - rewrite remove_dots_dots. pose proof (remove_dots_length r). simpl. lia.
  - rewrite remove_dots_other by exact Hsw.
    destruct l1 as [|y l1].
    + rewrite Hs in Hsw. discriminate.
    + injection Hs as -> Hr. specialize (IH l1 Hr). simpl. lia.
Qed.

Lemma no_dots3_fixed s : no_dots3 s ↔ replace dots3 [] s = s.
Proof.
  split.
  - induction s as [|r IH|x r Hsw IH] using remove_dots_ind; intros Hno.
    + reflexivity.
    + destruct (Hno [] r). reflexivity.
    + rewrite remove_dots_other by exact Hsw. f_equal. apply IH.
      intros l1 l2 Hr. apply (Hno (x :: l1) l2). rewrite Hr. reflexivity.
  - intros Hfix l1 l2 Hs.
    pose proof (remove_dots_shrinks s l1 l2 Hs) as Hlt. rewrite Hfix in Hlt. lia.
Qed.

Lemma rstrip_tail_kept s : tail_kept (rstrip s).
Proof.
  unfold tail_kept, rstrip. rewrite rev_involutive. apply lstrip_head_kept.
Qed.

Lemma tail_kept_rstrip s : tail_kept s → rstrip s = s.
Proof.
  intros Hs. unfold rstrip. rewrite (head_kept_lstrip _ Hs). apply rev_involutive.
Qed.

Lemma strip_fixed s : strip s = s ↔ head_kept s ∧ tail_kept s.
Proof.
  split.
  - intros <-. split.
    + apply rstrip_head_kept, lstrip_head_kept.
    + apply rstrip_tail_kept.
  - intros [Hh Ht]. unfold strip. rewrite (head_kept_lstrip s Hh).
    apply tail_kept_rstrip, Ht.
Qed.

Lemma replace_from_sublist old k s : replace_from old [] k s `sublist_of` s.
Proof.
  revert k. induction s as [|c rest IH]; intros k; simpl; [constructor|].
  destruct k as [|k]; [|apply sublist_cons, IH].
  destruct (startswith old (c :: rest)); simpl.
  - apply sublist_cons, IH.
  - apply sublist_skip, IH.
Qed.

Lemma lstrip_sublist s : lstrip s `sublist_of` s.
Proof.
  induction s as [|c rest IH]; simpl; [constructor|].
  destruct (isspace c); [apply sublist_cons, IH|reflexivity].
Qed.

Lemma rstrip_sublist s : rstrip s `sublist_of` s.
Proof.
  induction s as [|c s IH] using rev_ind; [constructor|].
  rewrite rstrip_snoc. destruct (isspace c); [|reflexivity].
  apply sublist_inserts_r, IH.
Qed.

Lemma strip_sublist s : strip s `sublist_of` s.
Proof.
  unfold strip. etransitivity; [apply rstrip_sublist|apply lstrip_sublist].
Qed.

Lemma delete_illegal_sublist s : delete_illegal s `sublist_of` s.
Proof.
  unfold delete_illegal, translate_delete, replace.
  repeat (etransitivity; [apply replace_from_sublist|]).
  apply sublist_filter.
Qed.

(** The characters the sanitizer deletes, in one list. *)
Lemma legal_iff c : legal c ↔ c ∉ py ":*?<>|/\'" ++ [34].
Proof.
  unfold legal. change (py ":*?<>|/\'" ++ [34]) with (py ":*?<>|" ++ [47; 92; 39; 34]).
  rewrite not_elem_of_app, !not_elem_of_cons. pose proof (not_elem_of_nil c). tauto.
Qed.

(** X1: with the flag set, none of the characters [: * ? < > | / \ '] and
    the double quote is left in the name the sanitizer returns. *)
Theorem clean_filename_no_illegal (s : str) (c : N) :
  c ∈ py ":*?<>|/\'" ++ [34] → c ∉ clean_filename true s.
Proof.
  intros Hc Hin. rewrite clean_filename_true in Hin.
  pose proof (strip_Forall legal _ (delete_illegal_legal s)) as Hall.
  rewrite Forall_forall in Hall. apply (proj1 (legal_iff c) (Hall c Hin)), Hc.
Qed.

(** X2: with the flag set, the name the sanitizer returns holds no three
    consecutive dots. *)
Theorem clean_filename_no_dots3 (s : str) (l1 l2 : str) :
  clean_filename true s ≠ l1 ++ py "..." ++ l2.
Proof.
  rewrite clean_filename_true. apply no_dots3_fixed.
  apply strip_no_dots. unfold delete_illegal. apply remove_dots_idempotent.
Qed.

(** X3: with either flag, the name the sanitizer returns neither begins nor
    ends with a whitespace character. *)
Theorem clean_filename_trimmed (flag : bool) (s : str) :
  head_kept (clean_filename flag s) ∧ tail_kept (clean_filename flag s).
Proof.
  unfold clean_filename. apply strip_fixed, strip_idempotent.
Qed.

(** X4: with either flag, the sanitizer only deletes: what it returns is the
    input with some characters left out, in the same order. *)
Theorem clean_filename_only_deletes (flag : bool) (s : str) :
  clean_filename flag s `sublist_of` s.
Proof.
  destruct flag.
  - rewrite clean_filename_true.
    etransitivity; [apply strip_sublist|apply delete_illegal_sublist].
  - apply strip_sublist.
Qed.

(** X5: with the flag set, the names the sanitizer leaves untouched are
    exactly those without a deleted character, without three consecutive
    dots and without whitespace at either end. *)
Theorem clean_filename_fixed_points (s : str) :
  clean_filename true s = s
  ↔ Forall legal s ∧ no_dots3 s ∧ head_kept s ∧ tail_kept s.
Proof.
  rewrite clean_filename_true. split.
  - intros Hs. rewrite <- Hs. repeat split.
    + apply strip_Forall, delete_illegal_legal.
    + apply no_dots3_fixed, strip_no_dots.
      unfold delete_illegal. apply remove_dots_idempotent.
    + apply rstrip_head_kept, lstrip_head_kept.
    + apply rstrip_tail_kept.
  - intros (Hl & Hd & Hh & Ht).
    rewrite delete_illegal_fixed by (try apply no_dots3_fixed; assumption).
    apply strip_fixed. split; assumption.
Qed.

Lemma lstrip_split s :
  ∃ before, s = before ++ lstrip s ∧ Forall (λ c, isspace c = true) before.
Proof.
  induction s as [|c rest (before & Hrest & Hbefore)]; simpl.
  - exists []. split; [reflexivity|constructor].
  - destruct (isspace c) eqn:E.
    + exists (c :: before). split; [simpl; congruence|constructor; assumption].
    + exists []. split; [reflexivity|constructor].
Qed.

Lemma rstrip_split s :
  ∃ after, s = rstrip s ++ after ∧ Forall (λ c, isspace c = true) after.
Proof.
  induction s as [|c s (after & Hs & Hafter)] using rev_ind.
  - exists []. split; [reflexivity|constructor].
  - rewrite rstrip_snoc. destruct (isspace c) eqn:E.
    + exists (after ++ [c]). split.
      * rewrite app_assoc, <- Hs. reflexivity.
      * apply Forall_app. split; [assumption|repeat constructor; assumption].
    + exists []. split; [rewrite app_nil_r; reflexivity|constructor].
Qed.

(** X6: with the flag cleared, the sanitizer removes nothing but whitespace
    at the two ends, and leaves a name untouched exactly when it has no
    whitespace there, whatever other characters it holds. *)
Theorem clean_filename_off (s : str) :
  (clean_filename false s = s ↔ head_kept s ∧ tail_kept s)
  ∧ ∃ before after,
      s = before ++ clean_filename false s ++ after
      ∧ Forall (λ c, isspace c = true) before
      ∧ Forall (λ c, isspace c = true) after.
Proof.
  split; [apply strip_fixed|].
  unfold clean_filename, strip.
  destruct (lstrip_split s) as (before & Hs & Hbefore).
  destruct (rstrip_split (lstrip s)) as (after & Hl & Hafter).
  exists before, after. rewrite <- Hl. auto.
Qed.

Lemma remove_dots_run (n : nat) :
  replace dots3 [] (replicate n 46) = replicate (n mod 3) 46.
Proof.
  induction n as [n IH] using lt_wf_ind.
  destruct n as [|[|[|n]]]; try reflexivity.
  change (replicate (S (S (S n))) 46) with (46 :: 46 :: 46 :: replicate n 46).
  rewrite remove_dots_dots, IH by lia.
  replace (S (S (S n))) with (n + 1 * 3)%nat by lia.
  rewrite Nat.Div0.mod_add. reflexivity.
Qed.

Lemma delete_illegal_of_legal s :
  Forall legal s → delete_illegal s = replace dots3 [] s.
Proof.
  intros Hl. unfold delete_illegal, translate_delete.
  rewrite !replace_char_filter.
  rewrite (filter_fixed (λ c, c ∉ py ":*?<>|"))
    by (eapply Forall_impl; [exact Hl|]; unfold legal; tauto).
  rewrite (filter_fixed (λ x, x ≠ 47))
    by (eapply Forall_impl; [exact Hl|]; unfold legal; tauto).
  rewrite (filter_fixed (λ x, x ≠ 92))
    by (eapply Forall_impl; [exact Hl|]; unfold legal; tauto).
  rewrite (filter_fixed (λ x, x ≠ 34))
    by (eapply Forall_impl; [exact Hl|]; unfold legal; tauto).
  rewrite (filter_fixed (λ x, x ≠ 39))
    by (eapply Forall_impl; [exact Hl|]; unfold legal; tauto).
  reflexivity.
Qed.

Lemma legal_dot : legal 46.
Proof. apply legal_iff, (bool_decide_unpack _). vm_compute. exact I. Qed.

(** X7: a name made of [n] dots comes out of the sanitizer as [n mod 3]
    dots: the names of one and of two dots pass unchanged. *)
Theorem clean_filename_dot_run (n : nat) :
  clean_filename true (replicate n 46) = replicate (n mod 3) 46.
Proof.
  rewrite clean_filename_true.
  assert (Hall : ∀ k : nat, Forall (λ c, c = 46) (replicate k 46))
    by (intros k; apply Forall_replicate; reflexivity).
  assert (Hdel : delete_illegal (replicate n 46) = replicate (n mod 3) 46).
  { rewrite delete_illegal_of_legal; [apply remove_dots_run|].
    eapply Forall_impl; [apply Hall|]. intros c ->. apply legal_dot. }
  rewrite Hdel. apply strip_fixed.
  destruct (n mod 3)%nat as [|k]; [split; exact I|].
  split; [reflexivity|].
  unfold tail_kept. rewrite replicate_S_end, rev_app_distr. reflexivity.
Qed.

Lemma lstrip_all_space s : Forall (λ c, isspace c = true) s → lstrip s = [].
Proof.
  induction 1 as [|c rest Hc _ IH]; [reflexivity|]. simpl. rewrite Hc. exact IH.
Qed.

(** X8: with the flag set, a name in which every character is one the
    sanitizer deletes or a whitespace character comes out empty, so that the
    destination gets an empty path segment. *)
Theorem clean_filename_empty (s : str) :
  Forall (λ c, c ∈ py ":*?<>|/\'" ++ [34] ∨ isspace c = true) s →
  clean_filename true s = [].
Proof.
  intros Hs. rewrite clean_filename_true.
  assert (Hspace : Forall (λ c, isspace c = true) (delete_illegal s)).
  { pose proof (delete_illegal_legal s) as Hlegal.
    pose proof (delete_illegal_sublist s) as Hsub.
    rewrite Forall_forall in *. intros c Hc.
    destruct (Hs c (elem_of_sublist _ _ c Hc Hsub)) as [Hdel|Hsp]; [|exact Hsp].
    destruct (proj1 (legal_iff c) (Hlegal c Hc) Hdel). }
  unfold strip. rewrite (lstrip_all_space _ Hspace). reflexivity.
Qed.

Lemma clean_filename_empty_witness :
  clean_filename true (py " ?? ") = [].
Proof.
  apply clean_filename_empty. apply (bool_decide_unpack _). vm_compute. exact I.
Defined.

(** ** Paths and file names *)

Lemma replace_backslash rest :
  replace (py "\") (py "/") rest = map (λ c, if c =? 92 then 47 else c) rest.
Proof.
  unfold replace. induction rest as [|c rest IH]; [reflexivity|].
  change (py "\") with [92]. change (py "/") with [47].
  cbn [replace_from startswith length Nat.pred map]. rewrite andb_true_r.
  rewrite (N.eqb_sym 92 c). destruct (c =? 92); simpl; rewrite <- IH; reflexivity.
Qed.

Lemma split_on_nonempty sep s : split_on sep s ≠ [].
Proof.
  destruct s as [|c rest]; simpl; [discriminate|].
  destruct (c =? sep); [discriminate|]. destruct (split_on sep rest); discriminate.
Qed.

Lemma split_on_no_sep sep s : Forall (λ part, sep ∉ part) (split_on sep s).
Proof.
  induction s as [|c rest IH]; simpl.
  - repeat constructor. apply not_elem_of_nil.
  - destruct (N.eqb_spec c sep) as [->|Hc].
    + constructor; [apply not_elem_of_nil|exact IH].
    + destruct (split_on sep rest) as [|h t];
        [repeat constructor; rewrite not_elem_of_cons; split;
           [congruence|apply not_elem_of_nil]|].
      inversion IH; subst. constructor; [|assumption].
      rewrite not_elem_of_cons. auto.
Qed.

Lemma split_on_last sep s :
  ∃ before,
    s = before ++ List.last (split_on sep s) []
    ∧ ((before = [] ∧ split_on sep s = [s])
       ∨ (∃ dir, before = dir ++ [sep]) ∧ (2 ≤ length (split_on sep s))%nat).
Proof.
  induction s as [|c rest (before & Hrest & Hcases)].
  - exists []. auto.
  - simpl. destruct (N.eqb_spec c sep) as [->|Hc].
    + exists (sep :: before).
      destruct (split_on sep rest) as [|h t] eqn:E.
      * destruct Hcases as [[_ ?]|[_ ?]]; [discriminate|simpl in *; lia].
      * split; [simpl in *; congruence|]. right. split; [|simpl; lia].
        destruct Hcases as [[-> _]|[[dir ->] _]];
          [exists []|exists (sep :: dir)]; reflexivity.
    + destruct Hcases as [[-> Hwhole]|[[dir ->] Hlen]].
      * rewrite Hwhole. exists []. auto.
      * destruct (split_on sep rest) as [|h [|h' t]] eqn:E; simpl in Hlen; try lia.
        exists (c :: dir ++ [sep]). split; [simpl in *; congruence|].
        right. split; [exists (c :: dir); reflexivity|simpl; lia].
Qed.

(** X9: the file name [run] takes from a path is what follows the last
    separator, whichever of the two the path used: it holds neither a slash
    nor a backslash, and the path with forward slashes is the name itself or
    a directory part ending in a slash followed by the name. *)
Theorem file_name_is_last_component (path : str) :
  (47 ∉ file_name_of path) ∧ (92 ∉ file_name_of path)
  ∧ (path_in_str_of path = file_name_of path
     ∨ ∃ dir, path_in_str_of path = dir ++ py "/" ++ file_name_of path).
Proof.
  unfold file_name_of.
  pose proof (split_on_no_sep 47 (path_in_str_of path)) as Hall.
  pose proof (split_on_nonempty 47 (path_in_str_of path)) as Hne.
  destruct (split_on_last 47 (path_in_str_of path)) as (before & Hpath & Hcases).
  assert (Hslash : 47 ∉ List.last (split_on 47 (path_in_str_of path)) []).
  { destruct (exists_last Hne) as (l & part & Hl). rewrite Hl, last_last.
    rewrite Hl in Hall. apply Forall_app in Hall as [_ Hpart].
    inversion Hpart; assumption. }
  split; [exact Hslash|]. split.
  - intros Hin.
    assert (Hin' : 92 ∈ path_in_str_of path)
      by (rewrite Hpath; apply elem_of_app; right; exact Hin).
    unfold path_in_str_of in Hin'. rewrite replace_backslash in Hin'.
    apply list_elem_of_In, in_map_iff in Hin' as (c & Hc & _).
    destruct (N.eqb_spec c 92); [discriminate|congruence].
  - destruct Hcases as [[-> _]|[[dir ->] _]]; [left; exact Hpath|].
    right. exists dir. rewrite Hpath at 1. rewrite <- app_assoc. reflexivity.
Qed.

(** ** Tags *)

Lemma scan_item_other found kv :
  is_identity_tag kv = false → scan_item found kv = found.
Proof.
  unfold is_identity_tag, is_alias, scan_item.
  intros [Ha Hb]%orb_false_iff. rewrite Ha, Hb. reflexivity.
Qed.

Lemma scan_from_filter found items :
  foldl scan_item found (List.filter is_identity_tag items)
  = foldl scan_item found items.
Proof.
  revert found. induction items as [|kv items IH]; intros found; [reflexivity|].
  simpl. destruct (is_identity_tag kv) eqn:E; simpl.
  - apply IH.
  - rewrite (scan_item_other found kv E). apply IH.
Qed.

(** X10: tags whose lower-cased key is no artist or album alias have no
    effect on the identity the scan resolves. *)
Theorem scan_ignores_other_tags (items : TagMap) :
  scan_identity (List.filter is_identity_tag items) = scan_identity items.
Proof. apply scan_from_filter. Qed.

Lemma last_value_snoc key items kv :
  last_value key (items ++ [kv]) =
  if bool_decide (kv.1 = key) then Some kv.2 else last_value key items.
Proof.
  unfold last_value. rewrite rev_app_distr. simpl.
  destruct (bool_decide (kv.1 = key)); reflexivity.
Qed.

(** X11: the metadata dictionary of an error record maps every tag key to
    the value of its last occurrence among the tags, and holds no other key. *)
Theorem collect_metadata_lookup (items : TagMap) (key : str) :
  collect_metadata items !! key = last_value key items.
Proof.
  unfold collect_metadata.
  induction items as [|kv items IH] using rev_ind; [reflexivity|].
  rewrite foldl_app, last_value_snoc. simpl.
  destruct (bool_decide_reflect (kv.1 = key)) as [<-|Hne].
  - apply lookup_insert_eq.
  - rewrite lookup_insert_ne by exact Hne. exact IH.
Qed.

(** ** Copying *)

Section Copying.
Context {W : Type} `{World W}.

(** The world [_copy_file] checks: after the directories were made. *)
Lemma copy_file_steps (src dst : str) (create_dirs : bool) (w : W) :
  let prepared := (if create_dirs then parent_mkdir dst else mret tt) w in
  _copy_file src dst create_dirs w =
  match prepared with
  | (Raise e, w1) => (Raise (py "Copy failed: " ++ e), w1)
  | (Ok _, w1) =>
      if negb (path_exists w1 src)
      then (Raise (py "Copy failed: " ++ py "Source file not found: " ++ src), w1)
      else if negb (access_R_OK w1 src)
      then (Raise (py "Copy failed: " ++ py "Cannot read source file: " ++ src), w1)
      else if path_exists w1 dst
      then (Raise (py "Copy failed: " ++ py "Destination file already exists: " ++ dst), w1)
      else match copy2 src dst w1 with
           | (Raise e, w2) => (Raise (py "Copy failed: " ++ e), w2)
           | (Ok _, w2) =>
               if negb (path_exists w2 dst)
               then (Raise (py "Copy failed: " ++ py "File copy failed: " ++ dst), w2)
               else (Ok tt, w2)
           end
  end.
Proof.
  unfold _copy_file. run_monad.
  destruct ((if create_dirs then parent_mkdir dst else λ w0, (Ok (), w0)) w)
    as [[[]|e] w1]; [|reflexivity].
  destruct (path_exists w1 src); cbn [negb]; [|reflexivity].
  destruct (access_R_OK w1 src); cbn [negb]; [|reflexivity].
  destruct (path_exists w1 dst); [reflexivity|].
  destruct (copy2 src dst w1) as [[[]|e] w2]; [|reflexivity].
  destruct (path_exists w2 dst); reflexivity.
Qed.

(** X12: [_copy_file] answers without an exception only when, after the
    directories were made, the source existed and was readable and the
    destination did not exist, the copy itself raised nothing, and the
    destination exists in the world it leaves; every failure is raised with
    a message that begins with [Copy failed: ]. *)
Theorem copy_file_outcome (src dst : str) (create_dirs : bool) (w : W) :
  match _copy_file src dst create_dirs w with
  | (Ok _, w') =>
      ∃ w1, (if create_dirs then parent_mkdir dst else mret tt) w = (Ok tt, w1)
            ∧ path_exists w1 src = true ∧ access_R_OK w1 src = true
            ∧ path_exists w1 dst = false
            ∧ copy2 src dst w1 = (Ok tt, w')
            ∧ path_exists w' dst = true
  | (Raise e, _) => ∃ cause, e = py "Copy failed: " ++ cause
  end.
Proof.
  rewrite copy_file_steps. cbv zeta.
  destruct ((if create_dirs then parent_mkdir dst else mret tt) w)
    as [[[]|e] w1]; [|eauto].
  destruct (path_exists w1 src) eqn:Esrc; cbn [negb]; [|eauto].
  destruct (access_R_OK w1 src) eqn:Eread; cbn [negb]; [|eauto].
  destruct (path_exists w1 dst) eqn:Edst; [eauto|].
  destruct (copy2 src dst w1) as [[[]|e] w2] eqn:Ecopy; [|eauto].
  destruct (path_exists w2 dst) eqn:Edone; cbn [negb]; [|eauto].
  exists w1. auto 10.
Qed.

(** X13: when, after the directories were made, the existence test of the
    source answers no, or answers yes and the read access test answers no,
    [_copy_file] raises, naming the source as missing or as unreadable, and
    leaves the world as the directory creation left it: [copy2] is not
    called, nothing is copied. *)
Theorem copy_file_invalid_source (src dst : str) (create_dirs : bool) (w w1 : W) :
  (if create_dirs then parent_mkdir dst else mret tt) w = (Ok tt, w1) →
  path_exists w1 src && access_R_OK w1 src = false →
  _copy_file src dst create_dirs w =
    (Raise (py "Copy failed: "
            ++ (if path_exists w1 src then py "Cannot read source file: "
                else py "Source file not found: ") ++ src), w1).
Proof.
  intros Hprepared Hinvalid.
  rewrite copy_file_steps. cbv zeta. rewrite Hprepared.
  destruct (path_exists w1 src); [|reflexivity].
  simpl in Hinvalid. rewrite Hinvalid. reflexivity.
Qed.
End Copying.

Lemma copy_file_invalid_source_witness :
  _copy_file (py "music/gone.mp3") (py "out/gone.mp3") true fs_three =
    (Raise (py "Copy failed: Source file not found: music/gone.mp3"), fs_three)
  ∧ _copy_file (py "music/a.mp3") (py "out/a.mp3") true fs_locked =
    (Raise (py "Copy failed: Cannot read source file: music/a.mp3"), fs_locked).
Proof.
  split.
  - rewrite (copy_file_invalid_source (py "music/gone.mp3") (py "out/gone.mp3")
               true fs_three fs_three) by reflexivity.
    vm_compute. reflexivity.
  - rewrite (copy_file_invalid_source (py "music/a.mp3") (py "out/a.mp3")
               true fs_locked fs_locked) by reflexivity.
    vm_compute. reflexivity.
Defined.

(** ** One file, further *)

Section OneFileFurther.
Context {W : Type} `{World W}.

Lemma index0_ok (v : TagValue) (w w' : W) x :
  index0 v w = (Ok x, w') → w' = w ∧ index0 v w = (Ok x, w).
Proof.
  intros Hv. pose proof (index0_pure v w) as Hw. rewrite Hv in Hw. simpl in Hw.
  subst w'. auto.
Qed.

(** [place_file] once both first elements are there. *)
Lemma place_file_steps flag info (path file_name : str) a b x y (w : W) :
  eq_empty_str a = false → eq_empty_str b = false →
  index0 a w = (Ok x, w) → index0 b w = (Ok y, w) →
  place_file flag info path file_name a b w =
  let target := target_path flag info file_name x y in
  if path_exists w target
  then (Ok (Existing
              (_handle_existing_file file_name
                 (selected_destination_folder_path info
                  ++ py "/" ++ clean_filename flag (to_text x)
                  ++ py "/" ++ clean_filename flag (to_text y)) path)), w)
  else match _copy_file path target true w with
       | (Ok _, w') => (Ok NoInfo, w')
       | (Raise e, w') => (Raise e, w')
       end.
Proof.
  intros Ha Hb Hx Hy. unfold place_file, target_path.
  unfold raise_if, reads. unfold mbind, M_bind, mret, M_ret.
  rewrite Ha, Hb. cbn [orb]. rewrite Hx, Hy. cbv zeta.
  destruct (path_exists w _); [reflexivity|].
  destruct (_copy_file _ _ true w) as [[[]|e] w']; reflexivity.
Qed.

(** X14: a file whose identity resolves, whose target is free and whose copy
    succeeds is Moved: the copy goes to destination/artist/album/file name
    with artist and album sanitized and the file name as it is, nothing is
    recorded, and the counter and the progress signal advance. *)
Theorem moved_file flag info total (st : LoopState) (path : str) items x y w' :
  let a := (scan_identity items).1 in
  let b := (scan_identity items).2 in
  let target := target_path flag info (file_name_of path) x y in
  mutagen_File (world st) (path_in_str_of path) = Ok (Some items) →
  eq_empty_str a = false → eq_empty_str b = false →
  index0 a (world st) = (Ok x, world st) →
  index0 b (world st) = (Ok y, world st) →
  path_exists (world st) target = false →
  _copy_file (path_in_str_of path) target true (world st) = (Ok tt, w') →
  loop_step flag info total st path =
    {| world := w';
       recall_files := recall_files st;
       i := S (i st);
       emitted := emitted st
                  ++ [music_progress_signal (progress_percent (S (i st)) total)] |}.
Proof.
  intros a b target Hread Ha Hb Hx Hy Hfree Hcopy.
  unfold loop_step, process_file.
  fold (path_in_str_of path). fold (file_name_of path). rewrite Hread.
  subst a b. destruct (scan_identity items) as [a b]. simpl in *.
  rewrite (place_file_steps flag info _ _ a b x y) by assumption.
  cbv zeta. fold target. rewrite Hfree, Hcopy. reflexivity.
Qed.

(** X15: a failing copy makes the file Errored: the record carries the tag
    values as they were read, not the sanitized names, and the message of
    [_copy_file], and the file is counted. *)
Theorem copy_failure_recorded flag info total (st : LoopState) (path : str)
    items x y e w' :
  let a := (scan_identity items).1 in
  let b := (scan_identity items).2 in
  let target := target_path flag info (file_name_of path) x y in
  mutagen_File (world st) (path_in_str_of path) = Ok (Some items) →
  eq_empty_str a = false → eq_empty_str b = false →
  index0 a (world st) = (Ok x, world st) →
  index0 b (world st) = (Ok y, world st) →
  path_exists (world st) target = false →
  _copy_file (path_in_str_of path) target true (world st) = (Raise e, w') →
  loop_step flag info total st path =
    {| world := w';
       recall_files :=
         {| error_files :=
              error_files (recall_files st)
              ++ [{| file_name := file_name_of path;
                     artist_found := a; album_found := b;
                     metadata_dict := collect_metadata items;
                     error := e |}];
            replace_skip_files := replace_skip_files (recall_files st) |};
       i := S (i st);
       emitted := emitted st
                  ++ [music_progress_signal (progress_percent (S (i st)) total)] |}.
Proof.
  intros a b target Hread Ha Hb Hx Hy Hfree Hcopy.
  unfold loop_step, process_file.
  fold (path_in_str_of path). fold (file_name_of path). rewrite Hread.
  subst a b. destruct (scan_identity items) as [a b]. simpl in *.
  rewrite (place_file_steps flag info _ _ a b x y) by assumption.
  cbv zeta. fold target. rewrite Hfree, Hcopy.
  destruct (copy_file_raise _ _ _ _ _ _ Hcopy) as [cause ->].
  reflexivity.
Qed.

(** X16: a file is Moved only after a copy that succeeded: its tags were
    read, both first elements were there, the target was free before and
    exists in the world the file leaves. *)
Theorem moved_only_after_copy flag info (path : str) (w w' : W) :
  process_file flag info path w = (NoInfo, w') →
  ∃ items x y,
    let target := target_path flag info (file_name_of path) x y in
    mutagen_File w (path_in_str_of path) = Ok (Some items)
    ∧ index0 (scan_identity items).1 w = (Ok x, w)
    ∧ index0 (scan_identity items).2 w = (Ok y, w)
    ∧ path_exists w target = false
    ∧ _copy_file (path_in_str_of path) target true w = (Ok tt, w')
    ∧ path_exists w' target = true.
Proof.
  unfold process_file. fold (path_in_str_of path). fold (file_name_of path).
  destruct (mutagen_File w (path_in_str_of path)) as [[items|]|e] eqn:Hread;
    [|discriminate..].
  destruct (scan_identity items) as [a b] eqn:Hscan.
  assert (Hsteps : ∀ x y,
            index0 a w = (Ok x, w) → index0 b w = (Ok y, w) →
            eq_empty_str a = false → eq_empty_str b = false →
            place_file flag info (path_in_str_of path) (file_name_of path) a b w
            = (Ok NoInfo, w') →
            let target := target_path flag info (file_name_of path) x y in
            path_exists w target = false
            ∧ _copy_file (path_in_str_of path) target true w = (Ok tt, w')
            ∧ path_exists w' target = true).
  { intros x y Hx Hy Ha Hb.
    rewrite (place_file_steps flag info _ _ a b x y) by assumption. cbv zeta.
    destruct (path_exists w _) eqn:Hfree; [discriminate|].
    destruct (_copy_file _ _ true w) as [[[]|e] w2] eqn:Hcopy; [|discriminate].
    intros [= ->].
    pose proof (copy_file_outcome (path_in_str_of path)
                  (target_path flag info (file_name_of path) x y) true w) as Hout.
    rewrite Hcopy in Hout. destruct Hout as (w1 & _ & _ & _ & _ & _ & Hdone).
    auto. }
  intros Hfile.
  assert (Hplace : place_file flag info (path_in_str_of path) (file_name_of path)
                     a b w = (Ok NoInfo, w')).
  { destruct (place_file _ _ _ _ _ _ w) as [[fi|e] w2]; [congruence|discriminate]. }
  clear Hfile. exists items. rewrite Hscan. cbn [fst snd].
  destruct a as [[|c s]|[|x l]], b as [[|c' s']|[|y l']];
    try (unfold place_file, index0, raise_if, raise in Hplace;
         unfold mbind, M_bind, mret, M_ret in Hplace; discriminate Hplace).
  all: edestruct Hsteps as (Hfree & Hcopy & Hdone);
    [reflexivity|reflexivity|reflexivity|reflexivity|exact Hplace|].
  all: eexists _, _; cbv zeta; repeat split; try reflexivity; eassumption.
Qed.

(** X17: a file the tag library rejects, by raising or by answering [None],
    is Errored with an empty identity and an empty dictionary; the message is
    the library's, or that of the attribute lookup on [None]; the world is
    untouched, the file is counted and its progress signal is emitted. *)
Theorem unreadable_tags_errored flag info total (st : LoopState) (path : str) e :
  (mutagen_File (world st) (path_in_str_of path) = Raise e
   ∧ e ≠ collision_message)
  ∨ (mutagen_File (world st) (path_in_str_of path) = Ok None
     ∧ e = py "'NoneType' object has no attribute 'items'") →
  loop_step flag info total st path =
    {| world := world st;
       recall_files :=
         {| error_files :=
              error_files (recall_files st)
              ++ [{| file_name := file_name_of path;
                     artist_found := VStr []; album_found := VStr [];
                     metadata_dict := ∅; error := e |}];
            replace_skip_files := replace_skip_files (recall_files st) |};
       i := S (i st);
       emitted := emitted st
                  ++ [music_progress_signal (progress_percent (S (i st)) total)] |}.
Proof.
  intros Hread. unfold loop_step, process_file.
  fold (path_in_str_of path). fold (file_name_of path).
  assert (Hcount : counts_for_progress
                     (Failed (_create_error_info (file_name_of path) (VStr [])
                                (VStr []) ∅ e)) = true).
  { destruct (counts_for_progress _) eqn:E; [reflexivity|].
    apply counts_for_progress_false in E. simpl in E.
    destruct Hread as [[_ Hne]|[_ ->]]; [congruence|discriminate]. }
  destruct Hread as [[Hread _]|[Hread ->]]; rewrite Hread; cbv zeta;
    rewrite Hcount; reflexivity.
Qed.
End OneFileFurther.

(** ** The run, further *)

Local Open Scope nat_scope.

Lemma filter_all {A} (P : A → Prop) `{∀ x, Decision (P x)} (l : list A) :
  Forall P l → filter P l = l.
Proof.
  induction 1 as [|x l Hx _ IH]; [reflexivity|].
  rewrite filter_cons_True by exact Hx. rewrite IH. reflexivity.
Qed.

Section RunFurther.
Context {W : Type} `{World W}.

Lemma loop_step_records flag info total (st : LoopState) (path : str) :
  let st' := loop_step flag info total st path in
  error_files (recall_files st) `prefix_of` error_files (recall_files st')
  ∧ replace_skip_files (recall_files st)
    `prefix_of` replace_skip_files (recall_files st')
  ∧ (Forall (λ e, existing_error e = collision_message)
       (replace_skip_files (recall_files st)) →
     Forall (λ e, existing_error e = collision_message)
       (replace_skip_files (recall_files st'))).
Proof.
  unfold loop_step.
  pose proof (process_file_result flag info path (world st)) as Hres.
  destruct (process_file flag info path (world st)) as [fi w'].
  assert (Hrec : ∀ r,
            error_files r `prefix_of` error_files (record_file fi r)
            ∧ replace_skip_files r `prefix_of` replace_skip_files (record_file fi r)
            ∧ (Forall (λ e, existing_error e = collision_message)
                 (replace_skip_files r) →
               Forall (λ e, existing_error e = collision_message)
                 (replace_skip_files (record_file fi r)))).
  { intros r. destruct fi as [|e|e]; simpl in *.
    - auto.
    - repeat split; [reflexivity|apply prefix_app_r; reflexivity|].
      intros Hall. apply Forall_app. split; [exact Hall|]. repeat constructor.
      exact Hres.
    - repeat split; [apply prefix_app_r; reflexivity|reflexivity|auto]. }
  destruct (counts_for_progress fi); simpl; apply Hrec.
Qed.

Lemma loop_records flag info total (paths : list str) (st : LoopState) :
  let st' := foldl (loop_step flag info total) st paths in
  error_files (recall_files st) `prefix_of` error_files (recall_files st')
  ∧ replace_skip_files (recall_files st)
    `prefix_of` replace_skip_files (recall_files st')
  ∧ (Forall (λ e, existing_error e = collision_message)
       (replace_skip_files (recall_files st)) →
     Forall (λ e, existing_error e = collision_message)
       (replace_skip_files (recall_files st'))).
Proof.
  revert st. induction paths as [|path paths IH]; intros st; simpl.
  - auto.
  - destruct (IH (loop_step flag info total st path)) as (He & Hs & Hall).
    destruct (loop_step_records flag info total st path) as (He1 & Hs1 & Hall1).
    repeat split; [etransitivity; eassumption..|auto].
Qed.

Lemma run_found flag info (w : W) :
  discover info w ≠ [] →
  let total := length (discover info w) in
  let st := foldl (loop_step flag info total) (initial_state w) (discover info w) in
  run flag info w =
    (number_songs_signal total
       :: emitted st ++ [organize_finish_signal (recall_files st)], world st).
Proof.
  intros Hfound. unfold run.
  destruct (discover info w) as [|path paths]; [congruence|reflexivity].
Qed.

Lemma progress_values_frame n (l : list Signal) r :
  progress_values (number_songs_signal n :: l ++ [organize_finish_signal r])
  = progress_values l.
Proof.
  unfold progress_values. cbn [omap list_omap]. rewrite omap_app. simpl.
  apply app_nil_r.
Qed.

(** X18: the records are append-only: whatever the loop has recorded after
    some files is still there, in the same order and at the front, after any
    further files. *)
Theorem records_append_only flag info total (before after : list str)
    (st : LoopState) :
  let middle := foldl (loop_step flag info total) st before in
  let final := foldl (loop_step flag info total) st (before ++ after) in
  error_files (recall_files middle) `prefix_of` error_files (recall_files final)
  ∧ replace_skip_files (recall_files middle)
    `prefix_of` replace_skip_files (recall_files final).
Proof.
  cbv zeta. rewrite foldl_app.
  destruct (loop_records flag info total after
              (foldl (loop_step flag info total) st before)) as (He & Hs & _).
  auto.
Qed.

(** X19: a run that found files emits, in this order, the count, one
    progress signal per counted file (at most as many as there are files) and
    exactly one result; a result is emitted exactly when files were found. *)
Theorem run_protocol flag info (w : W) :
  let total := length (discover info w) in
  (discover info w ≠ [] →
   ∃ count r,
     (run flag info w).1 =
       number_songs_signal total
       :: progress_signals total 1 count ++ [organize_finish_signal r]
     ∧ count ≤ total)
  ∧ ((∃ r, organize_finish_signal r ∈ (run flag info w).1) ↔ discover info w ≠ []).
Proof.
  cbv zeta. split.
  - intros Hfound.
    destruct (run_signals flag info w Hfound) as (st & count & Hrun & Hcount).
    exists count, (recall_files st). rewrite Hrun. split; [reflexivity|lia].
  - split.
    + intros [r Hr] Hnone. unfold run in Hr. rewrite Hnone in Hr. simpl in Hr.
      repeat (apply elem_of_cons in Hr as [Hr|Hr]; [discriminate|]).
      apply elem_of_nil in Hr. exact Hr.
    + intros Hfound.
      destruct (run_signals flag info w Hfound) as (st & count & Hrun & _).
      exists (recall_files st). rewrite Hrun. cbn [fst].
      apply elem_of_cons. right. apply elem_of_app. right. apply list_elem_of_singleton.
      reflexivity.
Qed.

(** X20: every discovered file is accounted for: the number of progress
    signals, the number of skipped files and the number of error records
    whose text is the collision message add up to the number of files, and
    every skipped record carries the collision message. *)
Theorem run_accounting flag info (w : W) (r : RecallFiles) :
  organize_finish_signal r ∈ (run flag info w).1 →
  length (progress_values (run flag info w).1)
  + length (replace_skip_files r)
  + length (filter (λ e, error e = collision_message) (error_files r))
  = length (discover info w)
  ∧ Forall (λ e, existing_error e = collision_message) (replace_skip_files r).
Proof.
  intros Hr.
  assert (Hfound : discover info w ≠ []).
  { intros Hnone. unfold run in Hr. rewrite Hnone in Hr. simpl in Hr.
    repeat (apply elem_of_cons in Hr as [Hr|Hr]; [discriminate|]).
    apply elem_of_nil in Hr. exact Hr. }
  rewrite (run_found flag info w Hfound) in *. cbv zeta in *. cbn [fst] in *.
  set (total := length (discover info w)) in *.
  set (st := foldl (loop_step flag info total) (initial_state w) (discover info w))
    in *.
  destruct (loop_invariant flag info total (discover info w) (initial_state w))
    as (count & _ & Hem & Hun).
  destruct (loop_records flag info total (discover info w) (initial_state w))
    as (_ & _ & Hall).
  fold st in Hem, Hun, Hall. cbv zeta in Hem, Hun, Hall.
  change (emitted (initial_state w)) with (@nil Signal) in Hem.
  change (i (initial_state w)) with 0 in Hem. simpl in Hem.
  specialize (Hall ltac:(constructor)).
  assert (Hrst : r = recall_files st).
  { apply elem_of_cons in Hr as [Hr|Hr]; [discriminate|].
    apply elem_of_app in Hr as [Hr|Hr].
    - rewrite Hem in Hr. apply finish_not_progress in Hr. destruct Hr.
    - apply list_elem_of_singleton in Hr. congruence. }
  subst r. split; [|exact Hall].
  rewrite progress_values_frame, Hem, progress_values_signals.
  rewrite length_map, length_seq.
  unfold uncounted in Hun.
  rewrite (filter_all _ (replace_skip_files (recall_files st)) Hall) in Hun.
  fold total in Hun.
  change (replace_skip_files (recall_files (initial_state w))) with (@nil ExistingFile) in Hun.
  change (error_files (recall_files (initial_state w))) with (@nil ErrorFile) in Hun.
  simpl in Hun. lia.
Qed.
End RunFurther.

(** ** Accuracy of the percentage *)

Section Binary64Accuracy.
Import Binary64.
Local Open Scope Q_scope.

Lemma nearest_even_error y :
  y - (1 # 2) <= inject_Z (nearest_even y) ∧ inject_Z (nearest_even y) <= y + (1 # 2).
Proof.
  pose proof (Qfloor_le y) as Hlo. pose proof (Qlt_floor y) as Hhi.
  rewrite inject_Z_plus in Hhi. change (inject_Z 1) with 1 in Hhi.
  unfold nearest_even.
  destruct (Qcompare_spec (y - inject_Z (Qfloor y)) (1 # 2)) as [Hc|Hc|Hc];
    [destruct (Z.even (Qfloor y))|..];
    rewrite ?inject_Z_plus; change (inject_Z 1) with 1; split; lra.
Qed.

(** One rounding moves a positive value by at most the fraction 2^-53. *)
Lemma round_pos_error q :
  0 < q →
  q * (1 - (1 # 2 ^ 53)) <= round_pos q ∧ round_pos q <= q * (1 + (1 # 2 ^ 53)).
Proof.
  intros Hq. destruct (ilog2_spec q Hq) as [Hlo _].
  unfold round_pos, prec. set (l := ilog2 q) in *.
  set (e := (l - (53 - 1))%Z).
  pose proof (pow2_pos e) as He.
  pose proof (pow2_add (- e) e) as Hinv.
  replace (- e + e)%Z with 0%Z in Hinv by lia. change (2 ^ 0) with 1 in Hinv.
  pose proof (pow2_add e 52) as Hl.
  replace (e + 52)%Z with l in Hl by (unfold e; lia).
  change (2 ^ 52) with (4503599627370496 # 1) in Hl.
  destruct (nearest_even_error (q * 2 ^ (- e))) as [Hn1 Hn2].
  revert Hn1 Hn2 He Hinv Hl Hlo.
  generalize (inject_Z (nearest_even (q * 2 ^ (- e)))) (2 ^ e) (2 ^ (- e)) (2 ^ l).
  intros nz p pinv pl Hn1 Hn2 He Hinv Hl Hlo.
  change (1 # 2 ^ 53) with (1 # 9007199254740992).
  assert (Hy : q * pinv * p == q) by (rewrite <- Qmult_assoc, Hinv; ring).
  assert (Hp : p * (4503599627370496 # 1) <= q) by (rewrite Hl; exact Hlo).
  split; nra.
Qed.

Lemma round_error q :
  0 < q → q * (1 - (1 # 2 ^ 53)) <= round q ∧ round q <= q * (1 + (1 # 2 ^ 53)).
Proof.
  intros Hq. rewrite round_of_pos by exact Hq.
  assert (Hred : 0 < Qred q) by (rewrite Qred_correct; exact Hq).
  destruct (round_pos_error (Qred q) Hred) as [Hlo Hhi].
  pose proof (Qred_correct q) as Hrq.
  revert Hlo Hhi Hrq. change (1 # 2 ^ 53) with (1 # 9007199254740992).
  generalize (round_pos (Qred q)) (Qred q). intros t rq. intros. split; lra.
Qed.

(** The float product before [int], within 300 * 2^-53 of the exact
    percentage. *)
Lemma percent_product_error (i n : nat) :
  (0 < i ≤ n)%nat →
  let v := inject_Z (100 * Z.of_nat i) / inject_Z (Z.of_nat n) in
  let x := mul (truediv (Z.of_nat i) (Z.of_nat n)) 100 in
  0 < x ∧ v - (300 # 2 ^ 53) <= x ∧ x <= v + (300 # 2 ^ 53).
Proof.
  intros Hin v x. subst v x. unfold mul, truediv.
  assert (Hn : 0 < inject_Z (Z.of_nat n)) by (rewrite <- (Zlt_Qlt 0); lia).
  assert (Hi : 0 < inject_Z (Z.of_nat i)) by (rewrite <- (Zlt_Qlt 0); lia).
  assert (Hle : inject_Z (Z.of_nat i) <= inject_Z (Z.of_nat n))
    by (rewrite <- Zle_Qle; lia).
  set (q := inject_Z (Z.of_nat i) / inject_Z (Z.of_nat n)).
  assert (Hq : 0 < q) by (apply truediv_positive; lia).
  assert (Hq1 : q <= 1).
  { unfold q. apply Qle_shift_div_r; [exact Hn|]. lra. }
  assert (Hv : inject_Z (100 * Z.of_nat i) / inject_Z (Z.of_nat n) == 100 * q).
  { unfold q. rewrite inject_Z_mult. change (inject_Z 100) with 100. field. lra. }
  rewrite Hv.
  destruct (round_error q Hq) as [Ha1 Ha2].
  pose proof (round_positive q Hq) as Hr.
  set (r := round q) in *.
  assert (Hm : 0 < r * 100) by lra.
  destruct (round_error (r * 100) Hm) as [Hb1 Hb2].
  pose proof (round_positive (r * 100) Hm) as Hx.
  revert Ha1 Ha2 Hb1 Hb2. change (1 # 2 ^ 53) with (1 # 9007199254740992).
  change (300 # 2 ^ 53) with (300 # 9007199254740992).
  intros. split; [exact Hx|]. split; nra.
Qed.
End Binary64Accuracy.

Lemma progress_percent_floor (i n : nat) :
  (0 < i ≤ n)%nat →
  progress_percent i n
  = Qfloor (Binary64.mul (Binary64.truediv (Z.of_nat i) (Z.of_nat n)) 100%Q).
Proof.
  intros Hin. destruct (percent_product_error i n Hin) as (Hx & _).
  unfold progress_percent, Binary64.int.
  rewrite (proj2 (Qle_bool_iff 0 _)) by (apply Qlt_le_weak, Hx). reflexivity.
Qed.

Lemma percent_product_bounds (i n : nat) :
  (0 < i ≤ n)%nat → (Z.of_nat n < 2 ^ 44)%Z →
  let x := Binary64.mul (Binary64.truediv (Z.of_nat i) (Z.of_nat n)) 100%Q in
  (inject_Z (exact_percent i n - 1) <= x)%Q
  ∧ (x < inject_Z (exact_percent i n + 1))%Q.
Proof.
  intros Hin Hbound x.
  destruct (percent_product_error i n Hin) as (Hx & Hlo & Hhi).
  cbv zeta in Hlo, Hhi. fold x in Hx, Hlo, Hhi.
  unfold exact_percent. set (a := (100 * Z.of_nat i)%Z) in *.
  set (m := Z.of_nat n) in *.
  assert (Hm : (0 < m)%Z) by (unfold m; lia).
  pose proof (Z.div_mod a m ltac:(lia)) as Hdiv.
  pose proof (Z.mod_pos_bound a m Hm) as Hmod.
  set (F := (a / m)%Z) in *.
  assert (HmQ : (0 < inject_Z m)%Q) by (rewrite <- (Zlt_Qlt 0); exact Hm).
  assert (Hv1 : (inject_Z F * inject_Z m <= inject_Z a)%Q).
  { rewrite <- inject_Z_mult, <- Zle_Qle. lia. }
  assert (Hv2 : (inject_Z a + 1 <= (inject_Z F + 1) * inject_Z m)%Q).
  { change 1%Q with (inject_Z 1). rewrite <- !inject_Z_plus, <- inject_Z_mult.
    rewrite <- Zle_Qle. lia. }
  assert (HmB : (inject_Z m + 1 <= 17592186044416 # 1)%Q).
  { change 1%Q with (inject_Z 1). rewrite <- inject_Z_plus.
    change (17592186044416 # 1)%Q with (inject_Z (2 ^ 44)). rewrite <- Zle_Qle. lia. }
  assert (Hvm : (inject_Z a / inject_Z m * inject_Z m == inject_Z a)%Q)
    by (field; lra).
  revert Hlo Hhi Hvm. change (300 # 2 ^ 53)%Q with (300 # 9007199254740992)%Q.
  generalize (inject_Z a / inject_Z m)%Q. intros v Hlo Hhi Hvm.
  assert (HvF : (inject_Z F <= v)%Q) by nra.
  assert (HvF1 : (v * inject_Z m + 1 <= (inject_Z F + 1) * inject_Z m)%Q) by lra.
  split.
  - unfold Z.sub. rewrite inject_Z_plus.
    change (inject_Z (- (1))) with (-1 # 1)%Q. lra.
  - rewrite inject_Z_plus. change (inject_Z 1) with 1%Q.
    assert (Hgap : ((300 # 9007199254740992) * inject_Z m < 1)%Q) by lra.
    nra.
Qed.

(** X21: for fewer than 2^44 files, the percentage shown is the exact
    percentage cut down to an integer, or one less: binary64 rounding never
    shows too much and loses at most one point. *)
Theorem progress_percent_accuracy (i n : nat) :
  (0 < i ≤ n)%nat → (Z.of_nat n < 2 ^ 44)%Z →
  (exact_percent i n - 1 ≤ progress_percent i n ≤ exact_percent i n)%Z.
Proof.
  intros Hin Hbound. rewrite (progress_percent_floor i n Hin).
  destruct (percent_product_bounds i n Hin Hbound) as [Hge Hlt].
  split.
  - apply Qfloor_resp_le in Hge. rewrite Qfloor_Z in Hge. exact Hge.
  - pose proof (Qfloor_le (Binary64.mul (Binary64.truediv (Z.of_nat i) (Z.of_nat n))
                             100%Q)) as Hfl.
    pose proof (Qle_lt_trans _ _ _ Hfl Hlt) as Hz.
    rewrite <- Zlt_Qlt in Hz. lia.
Qed.

(** X22: for fewer than 2^44 files, 100 is shown exactly when the counter has
    reached the number of files. *)
Theorem progress_percent_100 (i n : nat) :
  (0 < i ≤ n)%nat → (Z.of_nat n < 2 ^ 44)%Z →
  progress_percent i n = 100%Z ↔ i = n.
Proof.
  intros Hin Hbound. split.
  - intros H100.
    assert (Hexact : (100 ≤ exact_percent i n)%Z).
    { rewrite <- H100, (progress_percent_floor i n Hin).
      destruct (percent_product_bounds i n Hin Hbound) as [_ Hlt].
      pose proof (Qfloor_le (Binary64.mul (Binary64.truediv (Z.of_nat i) (Z.of_nat n))
                               100%Q)) as Hfl.
      pose proof (Qle_lt_trans _ _ _ Hfl Hlt) as Hz.
      rewrite <- Zlt_Qlt in Hz. lia. }
    unfold exact_percent in Hexact.
    destruct (Nat.eq_dec i n) as [|Hne]; [assumption|exfalso].
    assert (Hlt : (100 * Z.of_nat i / Z.of_nat n < 100)%Z)
      by (apply Z.div_lt_upper_bound; lia).
    lia.
  - intros ->. apply progress_percent_full. lia.
Qed.

Section RunRange.
Context {W : Type} `{World W}.

(** X23: every percentage a run emits lies between 0 and 100. *)
Theorem progress_in_range flag info (w : W) (p : Z) :
  p ∈ progress_values (run flag info w).1 → (0 ≤ p ≤ 100)%Z.
Proof.
  intros Hp.
  destruct (discover info w) as [|path paths] eqn:Hd.
  { unfold run in Hp. rewrite Hd in Hp. simpl in Hp. apply elem_of_nil in Hp.
    destruct Hp. }
  assert (Hfound : discover info w ≠ []) by congruence.
  destruct (run_signals flag info w Hfound) as (st & count & Hrun & Hcount).
  rewrite Hrun in Hp. cbn [fst] in Hp.
  rewrite progress_values_frame, progress_values_signals in Hp.
  apply list_elem_of_In, in_map_iff in Hp as (j & <- & Hj).
  apply in_seq in Hj.
  set (total := length (discover info w)) in *.
  assert (Hjt : 0 < j ≤ total) by lia.
  split.
  - rewrite (progress_percent_floor j total Hjt).
    destruct (percent_product_error j total Hjt) as (Hx & _).
    apply Qlt_le_weak, Qfloor_resp_le in Hx. exact Hx.
  - rewrite <- (progress_percent_full total) by lia.
    apply progress_percent_mono; lia.
Qed.
End RunRange.

(** ** Progress of a run *)

(** Below the number of files the percentage is below 100. *)
Lemma percent_below_100 (j n : nat) :
  0 < j < n → (Z.of_nat n < 2 ^ 44)%Z → (progress_percent j n < 100)%Z.
Proof.
  intros Hjn Hbound.
  assert (Hin : 0 < j ≤ n) by lia.
  rewrite (progress_percent_floor j n Hin).
  destruct (percent_product_bounds j n Hin Hbound) as [_ Hlt].
  pose proof (Qfloor_le (Binary64.mul (Binary64.truediv (Z.of_nat j) (Z.of_nat n))
                           100%Q)) as Hfl.
  pose proof (Qle_lt_trans _ _ _ Hfl Hlt) as Hz.
  rewrite <- Zlt_Qlt in Hz. unfold exact_percent in Hz.
  assert (Hdiv : (100 * Z.of_nat j / Z.of_nat n < 100)%Z)
    by (apply Z.div_lt_upper_bound; lia).
  lia.
Qed.

Section RunProgress.
Context {W : Type} `{World W}.

(** What a file that ends as SkippedExisting does to the loop state, and
    what the other files do to the skipped records. *)
Lemma loop_step_skipped flag info total (st : LoopState) (path : str) :
  let st' := loop_step flag info total st path in
  let outcome := outcome_of (process_file flag info path (world st)).1 in
  (outcome = SkippedExisting →
   i st' = i st ∧ emitted st' = emitted st
   ∧ ∃ record,
       replace_skip_files (recall_files st')
       = replace_skip_files (recall_files st) ++ [record])
  ∧ (outcome ≠ SkippedExisting →
     replace_skip_files (recall_files st') = replace_skip_files (recall_files st)).
Proof.
  cbv zeta. unfold loop_step.
  pose proof (process_file_result flag info path (world st)) as Hres.
  destruct (process_file flag info path (world st)) as [fi w'].
  cbn [fst] in *. split.
  - intros Hskipped. destruct fi as [|r|r]; try discriminate Hskipped.
    simpl in Hres.
    assert (Hc : counts_for_progress (Existing r) = false).
    { apply counts_for_progress_false. simpl. congruence. }
    rewrite Hc. simpl. eauto.
  - intros Hother.
    destruct fi as [|r|r]; [| contradiction Hother; reflexivity |];
      destruct (counts_for_progress _); reflexivity.
Qed.

(** C3 (amended): in a run that found files the progress percentages never
    decrease, and the k-th of them is the percentage of k files out of all
    that were found.  A file that ends as SkippedExisting emits nothing and
    leaves the counter as it was; it adds one record to the skipped files,
    which no other file does.  The run emits the count, the percentages and
    one result; the number of percentages, of skipped files and of error
    records with the collision message add up to the number of files.  With
    no skipped file and no such error record the last percentage is 100;
    with a skipped file, and fewer than 2^44 files, every percentage is
    below 100. *)
Theorem progress_monotone_and_complete flag info (w : W) :
  discover info w ≠ [] →
  let total := length (discover info w) in
  let values := progress_values (run flag info w).1 in
  StronglySorted Z.le values
  ∧ values = map (λ processed, progress_percent processed total)
               (seq 1 (length values))
  ∧ (∀ st path,
       let st' := loop_step flag info total st path in
       let outcome := outcome_of (process_file flag info path (world st)).1 in
       (outcome = SkippedExisting →
        i st' = i st ∧ emitted st' = emitted st
        ∧ ∃ record,
            replace_skip_files (recall_files st')
            = replace_skip_files (recall_files st) ++ [record])
       ∧ (outcome ≠ SkippedExisting →
          replace_skip_files (recall_files st')
          = replace_skip_files (recall_files st)))
  ∧ ∃ r,
      (run flag info w).1
      = number_songs_signal total
        :: map music_progress_signal values ++ [organize_finish_signal r]
      ∧ length values + length (replace_skip_files r)
        + length (filter (λ e, error e = collision_message) (error_files r))
        = total
      ∧ (replace_skip_files r = [] →
         Forall (λ e, error e ≠ collision_message) (error_files r) →
         last values = Some 100%Z)
      ∧ (replace_skip_files r ≠ [] → (Z.of_nat total < 2 ^ 44)%Z →
         Forall (λ p, (p < 100)%Z) values).
Proof.
  intros Hfound total values.
  assert (Htotal : 0 < total).
  { subst total. destruct (discover info w); [congruence|simpl; lia]. }
  pose proof (run_found flag info w Hfound) as Hrun. cbv zeta in Hrun.
  fold total in Hrun.
  set (st := foldl (loop_step flag info total) (initial_state w) (discover info w))
    in *.
  destruct (loop_invariant flag info total (discover info w) (initial_state w))
    as (count & _ & Hem & Hun).
  destruct (loop_records flag info total (discover info w) (initial_state w))
    as (_ & _ & Hall).
  fold st in Hem, Hun, Hall. cbv zeta in Hem, Hun, Hall.
  change (emitted (initial_state w)) with (@nil Signal) in Hem.
  change (i (initial_state w)) with 0 in Hem. simpl in Hem.
  specialize (Hall ltac:(constructor)).
  assert (Hvalues : values
                    = map (λ processed, progress_percent processed total)
                        (seq 1 count)).
  { subst values. rewrite Hrun. cbn [fst].
    rewrite progress_values_frame, Hem. apply progress_values_signals. }
  assert (Hlen : length values = count).
  { rewrite Hvalues, length_map, length_seq. reflexivity. }
  assert (Hacc : count + length (replace_skip_files (recall_files st))
                 + length (filter (λ e, error e = collision_message)
                             (error_files (recall_files st)))
                 = total).
  { unfold uncounted in Hun.
    rewrite (filter_all _ (replace_skip_files (recall_files st)) Hall) in Hun.
    fold total in Hun.
    change (replace_skip_files (recall_files (initial_state w)))
      with (@nil ExistingFile) in Hun.
    change (error_files (recall_files (initial_state w)))
      with (@nil ErrorFile) in Hun.
    simpl in Hun. lia. }
  split; [rewrite Hvalues; apply percent_sorted; lia|].
  split; [rewrite Hlen; exact Hvalues|].
  split; [intros st0 path; apply loop_step_skipped|].
  exists (recall_files st).
  split.
  { rewrite Hrun. cbn [fst]. rewrite Hem, Hvalues. unfold progress_signals.
    rewrite map_map. reflexivity. }
  split; [rewrite Hlen; exact Hacc|].
  split.
  - intros Hnone Hclean. rewrite Hnone in Hacc.
    rewrite (filter_none _ _ Hclean) in Hacc. simpl in Hacc.
    assert (Hcount : count = total) by lia.
    rewrite Hvalues, Hcount.
    destruct total as [|n]; [lia|].
    rewrite seq_S, map_app. cbn [map]. rewrite last_snoc.
    f_equal. apply progress_percent_full. lia.
  - intros Hsome Hbound.
    assert (Hskips : 0 < length (replace_skip_files (recall_files st))).
    { destruct (replace_skip_files (recall_files st)); [congruence|simpl; lia]. }
    rewrite Hvalues. apply Forall_forall. intros p Hp.
    apply list_elem_of_In, in_map_iff in Hp as (j & <- & Hj).
    apply in_seq in Hj. apply percent_below_100; [lia|exact Hbound].
Qed.
End RunProgress.

Lemma progress_monotone_and_complete_witness :
  last (progress_values (run true demo_info fs_three).1) = Some 100%Z
  ∧ Forall (λ p, (p < 100)%Z) (progress_values (run true demo_info fs_one_of_two).1).
Proof.
  assert (H3 : discover demo_info fs_three ≠ []) by (vm_compute; discriminate).
  assert (H2 : discover demo_info fs_one_of_two ≠ []) by (vm_compute; discriminate).
  destruct (progress_monotone_and_complete true demo_info fs_three H3)
    as (_ & _ & _ & r3 & Hrun3 & _ & Hfull & _).
  destruct (progress_monotone_and_complete true demo_info fs_one_of_two H2)
    as (_ & _ & _ & r2 & Hrun2 & _ & _ & Hshort).
  split.
  - apply Hfull.
    + vm_compute in Hrun3. injection Hrun3 as <-. reflexivity.
    + vm_compute in Hrun3. injection Hrun3 as <-. constructor.
  - apply Hshort.
    + vm_compute in Hrun2. injection Hrun2 as <-. discriminate.
    + vm_compute. reflexivity.
Defined.

(** ** The settings *)

(** X24: the thread sanitizes unless the settings file is an object whose
    [remove_illegal_chars] value is false in Python's sense: a missing file
    or a missing key leaves the flag on; and construction fails exactly when
    reading the file fails otherwise than by its absence. *)
Theorem sanitization_on_by_default {PyObj : Type} (truth : PyObj → bool)
    (file : SettingsFile) :
  (∀ a, __init__ file = Ok a → attribute_truth truth a = false →
        ∃ settings v,
          file = Loaded settings
          ∧ settings !! py "remove_illegal_chars" = Some v ∧ truth v = false)
  ∧ (∀ msg, __init__ file = Raise msg ↔ file = LoadFails msg).
Proof.
  split.
  - intros a Hinit Hoff. destruct file as [|msg|settings]; simpl in Hinit.
    + injection Hinit as <-. discriminate Hoff.
    + discriminate Hinit.
    + exists settings.
      destruct (settings !! py "remove_illegal_chars") as [v|];
        injection Hinit as <-; [|discriminate Hoff].
      exists v. auto.
  - intros msg. destruct file as [|msg'|settings]; simpl; split;
      intros Heq; try discriminate Heq; congruence.
Qed.

Lemma sanitization_on_by_default_witness :
  ∃ settings v,
    Loaded settings_flag_off = Loaded settings
    ∧ settings !! py "remove_illegal_chars" = Some v ∧ v = false.
Proof.
  apply (proj1 (sanitization_on_by_default (λ b : bool, b) (Loaded settings_flag_off))
           (FromSettings false)); reflexivity.
Defined.

Section SettingsChanged.
Context {V : Type}.
Variable py_none : V.
Variable py_ne : V → V → bool.

(** X26: a key that was removed is not noticed.  When every current entry is
    an entry of the original settings, however many further keys the original
    has, [_settings_changed] answers true only for a current value that
    differs from itself, as a float NaN does; where every current value
    equals itself it answers false. *)
Theorem settings_changed_misses_removal (settings original : gmap str V) :
  settings ⊆ original →
  (_settings_changed py_none py_ne settings original = true
   ↔ ∃ key v, settings !! key = Some v ∧ py_ne v v = true)
  ∧ ((∀ key v, settings !! key = Some v → py_ne v v = false) →
     _settings_changed py_none py_ne settings original = false).
Proof.
  intros Hsub.
  assert (Hiff : _settings_changed py_none py_ne settings original = true
                 ↔ ∃ key v, settings !! key = Some v ∧ py_ne v v = true).
  { unfold _settings_changed. rewrite existsb_exists. split.
    - intros (key & Hin & Hne).
      apply in_map_iff in Hin as ([k v] & <- & Hkv).
      apply list_elem_of_In, elem_of_map_to_list in Hkv. simpl in *.
      exists k, v. split; [exact Hkv|].
      unfold dict_get in Hne.
      rewrite Hkv, (lookup_weaken _ _ _ _ Hkv Hsub) in Hne. exact Hne.
    - intros (key & v & Hkv & Hne). exists key. split.
      + apply in_map_iff. exists (key, v). split; [reflexivity|].
        apply list_elem_of_In, elem_of_map_to_list. exact Hkv.
      + unfold dict_get. rewrite Hkv, (lookup_weaken _ _ _ _ Hkv Hsub).
        exact Hne. }
  split; [exact Hiff|].
  intros Hself. apply not_true_is_false. intros Hchanged.
  apply Hiff in Hchanged as (key & v & Hkv & Hne).
  rewrite (Hself key v Hkv) in Hne. discriminate Hne.
Qed.
End SettingsChanged.

Lemma settings_changed_misses_removal_witness :
  _settings_changed SNone setting_ne settings_muted
    (<[py "version" := SBool false]> settings_muted) = false
  ∧ _settings_changed SNone setting_ne settings_with_nan settings_with_nan = true.
Proof.
  assert (Hremoved : settings_muted ⊆ <[py "version" := SBool false]> settings_muted).
  { apply insert_subseteq. reflexivity. }
  split.
  - apply (proj2 (settings_changed_misses_removal SNone setting_ne settings_muted
                    (<[py "version" := SBool false]> settings_muted) Hremoved)).
    intros key v Hkv. unfold settings_muted in Hkv.
    apply lookup_singleton_Some in Hkv as [_ <-]. reflexivity.
  - apply (proj1 (settings_changed_misses_removal SNone setting_ne settings_with_nan
                    settings_with_nan (reflexivity settings_with_nan))).
    exists (py "volume"), SNaN. split; reflexivity.
Defined.

(** X27: the window is centred to within one pixel: the margin left of it
    is the margin right of it, or one pixel less, and likewise above and
    below, also when the window is larger than the screen. *)
Theorem center_window_margins (screen_width screen_height width height : Z) :
  let '(x, y) := center_window screen_width screen_height width height in
  (0 ≤ (screen_width - (x + width)) - x ≤ 1)%Z
  ∧ (0 ≤ (screen_height - (y + height)) - y ≤ 1)%Z.
Proof.
  unfold center_window.
  pose proof (Z.div_mod (screen_width - width) 2 ltac:(lia)).
  pose proof (Z.mod_pos_bound (screen_width - width) 2 ltac:(lia)).
  pose proof (Z.div_mod (screen_height - height) 2 ltac:(lia)).
  pose proof (Z.mod_pos_bound (screen_height - height) 2 ltac:(lia)).
  lia.
Qed.

(** ** Further concrete runs *)

Lemma clean_filename_no_illegal_witness : 47%N ∉ clean_filename true band_input.
Proof.
  apply clean_filename_no_illegal.
  apply (bool_decide_unpack _). vm_compute. exact I.
Defined.

Lemma moved_file_witness :
  world (loop_step true demo_info 3 (initial_state fs_three) (py "music/a.mp3"))
  = fs_three_moved.
Proof.
  rewrite (moved_file true demo_info 3 (initial_state fs_three) (py "music/a.mp3")
             [text_tag "artist" "Band"; text_tag "album" "LP"]
             (PlainText (py "Band")) (PlainText (py "LP")) fs_three_moved);
    vm_compute; reflexivity.
Defined.

Lemma copy_failure_recorded_witness :
  error_files
    (recall_files
       (loop_step true demo_info 1 (initial_state fs_locked) (py "music/a.mp3")))
  = [{| file_name := py "a.mp3";
        artist_found := VSeq [PlainText (py "Band")];
        album_found := VSeq [PlainText (py "LP")];
        metadata_dict :=
          collect_metadata [text_tag "artist" "Band"; text_tag "album" "LP"];
        error := py "Copy failed: Cannot read source file: music/a.mp3" |}].
Proof.
  rewrite (copy_failure_recorded true demo_info 1 (initial_state fs_locked)
             (py "music/a.mp3")
             [text_tag "artist" "Band"; text_tag "album" "LP"]
             (PlainText (py "Band")) (PlainText (py "LP"))
             (py "Copy failed: Cannot read source file: music/a.mp3") fs_locked);
    vm_compute; reflexivity.
Defined.

Lemma moved_only_after_copy_witness :
  ∃ items x y,
    let target := target_path true demo_info (file_name_of (py "music/a.mp3")) x y in
    mutagen_File fs_three (path_in_str_of (py "music/a.mp3")) = Ok (Some items)
    ∧ index0 (scan_identity items).1 fs_three = (Ok x, fs_three)
    ∧ index0 (scan_identity items).2 fs_three = (Ok y, fs_three)
    ∧ path_exists fs_three target = false
    ∧ _copy_file (path_in_str_of (py "music/a.mp3")) target true fs_three
      = (Ok tt, fs_three_moved)
    ∧ path_exists fs_three_moved target = true.
Proof.
  apply (moved_only_after_copy true demo_info (py "music/a.mp3") fs_three
           fs_three_moved).
  vm_compute. reflexivity.
Defined.

Lemma unreadable_tags_errored_witness :
  error_files
    (recall_files
       (loop_step true demo_info 1 (initial_state fs_unreadable)
          (py "music/a.mp3")))
  = [{| file_name := py "a.mp3";
        artist_found := VStr []; album_found := VStr [];
        metadata_dict := ∅;
        error := py "can't sync to MPEG frame" |}].
Proof.
  rewrite (unreadable_tags_errored true demo_info 1 (initial_state fs_unreadable)
             (py "music/a.mp3") (py "can't sync to MPEG frame")).
  - vm_compute. reflexivity.
  - left. split; [reflexivity|discriminate].
Defined.

Lemma run_protocol_witness :
  ∃ count r,
    (run true demo_info fs_three).1 =
      number_songs_signal (length (discover demo_info fs_three))
      :: progress_signals (length (discover demo_info fs_three)) 1 count
      ++ [organize_finish_signal r]
    ∧ count ≤ length (discover demo_info fs_three).
Proof.
  apply (proj1 (run_protocol true demo_info fs_three)).
  vm_compute. discriminate.
Defined.

Lemma run_accounting_witness :
  length (progress_values (run true demo_info fs_one_of_two).1) + 1 + 0
  = length (discover demo_info fs_one_of_two).
Proof.
  apply (proj1 (run_accounting true demo_info fs_one_of_two
                  {| error_files := [];
                     replace_skip_files :=
                       [_handle_existing_file (py "b.mp3") (py "out/Band/LP")
                          (py "music/b.mp3")] |}
                  ltac:(apply list_elem_of_In; vm_compute; do 2 right; left;
                        reflexivity))).
Defined.

Lemma progress_percent_accuracy_witness :
  (exact_percent 29 100 - 1 ≤ progress_percent 29 100 ≤ exact_percent 29 100)%Z.
Proof.
  apply progress_percent_accuracy; [lia|vm_compute; reflexivity].
Defined.

Lemma progress_percent_100_witness :
  progress_percent 3 3 = 100%Z ↔ 3 = 3.
Proof.
  apply progress_percent_100; [lia|vm_compute; reflexivity].
Defined.

Lemma progress_in_range_witness : (0 ≤ 66 ≤ 100)%Z.
Proof.
  apply (progress_in_range true demo_info fs_three 66%Z).
  apply list_elem_of_In. vm_compute. right. left. reflexivity.
Defined.
